(** * MathJax editor: buffer and cursor model of [src/Editor.js]

    The development embeds the text-editing core of the [Editor] class:
    the value (a JavaScript string), the cursor (a JavaScript number that
    only ever holds integers), and the methods [updateCursor],
    [findCommandAt], [handleInput], [insert], [insertCommand] and [erase].

    The DOM and MathJax calls ([updateDebug], [updateJaxElement],
    [updateCursorElement], [focus]) only read the two fields and are left
    out, as is [handleInputEvent], which reads the input element and
    calls [handleInput] once per typed character; [console.warn] is kept
    as a log of the reported key codes.

    Characters are 8-bit [ascii] values; a JavaScript string is a list of
    them.  Every loop of the source is a fuelled recursion, so that a loop
    that never exits shows as [None] for every amount of fuel, and a
    method that returns is shown to return once the fuel covers the
    length of the buffer. *)

From Stdlib Require Import ZArith List Ascii String Bool Lia.
Import ListNotations.
Local Open Scope Z_scope.

(** ** JavaScript string primitives used by the editor *)

Definition jsstring : Type := list ascii.

Module JS.

Definition lit (s : string) : jsstring := list_ascii_of_string s.

(** [s.length] *)
Definition length (s : jsstring) : Z := Z.of_nat (List.length s).

(** [s[i]]: [None] stands for [undefined], the result at every index
    outside [0 .. length-1]. *)
Definition get (s : jsstring) (i : Z) : option ascii :=
  if i <? 0 then None else nth_error s (Z.to_nat i).

(** [s[i] === c] *)
Definition eqAt (s : jsstring) (i : Z) (c : ascii) : bool :=
  match get s i with
  | Some d => Ascii.eqb d c
  | None => false
  end.

(** The relative index of [String.prototype.slice]: a negative argument
    counts from the end of the string. *)
Definition relative (len k : Z) : Z :=
  if k <? 0 then Z.max (len + k) 0 else Z.min k len.

(** [s.slice(from, to)]; [to = None] is the omitted argument. *)
Definition slice (s : jsstring) (from : Z) (to : option Z) : jsstring :=
  let len := length s in
  let a := relative len from in
  let b := match to with Some t => relative len t | None => len end in
  firstn (Z.to_nat (b - a)) (skipn (Z.to_nat a) s).

(** [ToIntegerOrInfinity] on a number-or-null: [null] converts to 0. *)
Definition toInteger (x : option Z) : Z :=
  match x with Some k => k | None => 0 end.

(** [s.repeat(n)]: a negative count throws a RangeError ([None]). *)
Definition repeat (s : jsstring) (n : Z) : option jsstring :=
  if n <? 0 then None else Some (List.concat (List.repeat s (Z.to_nat n))).

End JS.

Definition backslash : ascii := "092"%char.
Definition lbrace : ascii := "{"%char.
Definition rbrace : ascii := "}"%char.

Definition KEY_BACKSPACE : Z := 8.
Definition KEY_LEFT : Z := 37.
Definition KEY_RIGHT : Z := 39.

(** ** The helper of [./utils] *)

(** Modelled from the spec: [insertBetween] of [./utils], which is imported
    by [Editor.js] and whose source is not part of the sources at hand.  The
    spec describes it as the insert-between primitive that splices a
    fragment into the text at an offset, and at index 0 when the offset is
    the sentinel; an offset past the end appends. *)
Definition insertBetween (s : jsstring) (index : Z) (fragment : jsstring)
  : jsstring :=
  firstn (Z.to_nat index) s ++ fragment ++ skipn (Z.to_nat index) s.

(** ** Loops *)

(** How a [while] loop ended, with the value its counter holds then. *)
Inductive loopExit : Type :=
| Broke (i : Z)
| Finished (i : Z).

Definition counter (e : loopExit) : Z :=
  match e with Broke i | Finished i => i end.

(** [while (i--) { if (hit(i)) break; }]

    The test reads [i] and then decrements it: the loop ends without a
    break only when the test reads 0, and the counter is -1 afterwards. *)
Fixpoint whileDec (fuel : nat) (hit : Z -> bool) (i : Z) : option loopExit :=
  match fuel with
  | O => None
  | S fuel' =>
      if i =? 0 then Some (Finished (i - 1))
      else
        let i' := i - 1 in
        if hit i' then Some (Broke i') else whileDec fuel' hit i'
  end.

(** [while (i++ < length) { if (hit(i)) break; }]

    The test compares [i] and then increments it, so the body first sees
    the index after the starting one. *)
Fixpoint whileInc (fuel : nat) (hit : Z -> bool) (length i : Z)
  : option loopExit :=
  match fuel with
  | O => None
  | S fuel' =>
      if i <? length then
        let i' := i + 1 in
        if hit i' then Some (Broke i') else whileInc fuel' hit length i'
      else Some (Finished (i + 1))
  end.

(** What the decreasing loop started at [i] leaves: a break at the
    nearest hit below [i], or -1 when no index below [i] hits. *)
Definition decExit (hit : Z -> bool) (i : Z) (r : loopExit) : Prop :=
  match r with
  | Broke j =>
      0 <= j < i /\ hit j = true /\ forall k, j < k < i -> hit k = false
  | Finished j =>
      j = -1 /\ forall k, 0 <= k < i -> hit k = false
  end.

(** What the increasing loop started at [i] leaves: a break at the first
    hit above [i], or one more than the last value tested. *)
Definition incExit (hit : Z -> bool) (length i : Z) (r : loopExit)
  : Prop :=
  match r with
  | Broke j =>
      i < j <= length /\ hit j = true /\ forall k, i < k < j -> hit k = false
  | Finished j =>
      j = Z.max i length + 1 /\ forall k, i < k <= length -> hit k = false
  end.

(** ** The editor *)

Module Editor.

Record t : Type := mk {
  value : jsstring;
  cursor : Z;
  console : list Z   (* key codes passed to [console.warn] *)
}.

(** The state the constructor leaves. *)
Definition init : t := {| value := []; cursor := 0; console := [] |}.

Definition setCursor (e : t) (c : Z) : t :=
  {| value := value e; cursor := c; console := console e |}.

Definition setValue (e : t) (v : jsstring) : t :=
  {| value := v; cursor := cursor e; console := console e |}.

Definition warn (e : t) (k : Z) : t :=
  {| value := value e; cursor := cursor e; console := console e ++ [k] |}.

Notation "x <- a ;; b" :=
  (match a with Some x => b | None => None end)
    (at level 61, a at next level, right associativity).

(** [updateCursor(amount)], lines 97-135.  [leftTarget] is the left
    branch, [skipName] the scan after a backslash, [rightTarget] the
    value of [next] before the last test of the right branch. *)
Definition leftTarget (fuel : nat) (v : jsstring) (next : Z) : option Z :=
  if JS.eqAt v next lbrace then
    e <- whileDec fuel (fun i => JS.eqAt v i backslash) next ;;
    Some (counter e)
  else Some next.

Definition skipName (fuel : nat) (v : jsstring) (next : Z) : option Z :=
  e <- whileInc fuel (fun i => JS.eqAt v i lbrace) (JS.length v) next ;;
  Some (counter e + 1).

Definition rightTarget (fuel : nat) (v : jsstring) (current next : Z)
  : option Z :=
  if JS.eqAt v current backslash then skipName fuel v next else Some next.

Definition stepOver (v : jsstring) (next : Z) : Z :=
  if JS.eqAt v next lbrace then next + 1 else next.

Definition updateCursor (fuel : nat) (amount : Z) (e : t) : option t :=
  let next := cursor e + amount in
  let current := cursor e in
  let v := value e in
  next <- (if amount <? 0 then leftTarget fuel v next else Some next) ;;
  next <- (if 0 <? amount then
             n <- rightTarget fuel v current next ;;
             Some (stepOver v n)
           else Some next) ;;
  Some (setCursor e next).

(** [findCommandAt(position)], lines 162-193.  [start] stays [null]
    ([None]) when the first loop does not break; [end] always holds a
    number on return. *)
Record coordinates : Type := {
  start : option Z;
  end_ : Z
}.

Definition closes (v : jsstring) (i : Z) : bool :=
  JS.eqAt v i rbrace && negb (JS.eqAt v (i + 1) lbrace).

Definition findCommandAt (fuel : nat) (v : jsstring) (position : Z)
  : option coordinates :=
  let previous := position - 1 in
  let next := position + 1 in
  a <- whileDec fuel (fun i => JS.eqAt v i backslash) next ;;
  b <- whileInc fuel (closes v) (JS.length v) previous ;;
  Some {| start := match a with Broke i => Some i | Finished _ => None end;
          end_ := counter b |}.

(** [insert(value)], lines 269-283. *)
Definition insert (text : jsstring) (e : t) : t :=
  let c := cursor e in
  let current := value e in
  if c =? -1 then
    {| value := text ++ current;
       cursor := c + JS.length text;
       console := console e |}
  else
    {| value := insertBetween current c text;
       cursor := c + JS.length text;
       console := console e |}.

(** [insertCommand(command, blockCount)], lines 295-306.  [repeat]
    throws for a negative count, after [insert] has already changed the
    editor. *)
Inductive completion : Type :=
| Returned (e : t)
| Thrown (e : t).


Definition insertCommand (command : jsstring) (blockCount : Z) (e : t)
  : completion :=
  let e1 := insert (command ++ [lbrace]) e in
  match JS.repeat [lbrace; rbrace] (blockCount - 1) with
  | None => Thrown e1
  | Some rest =>
      let blocks := rbrace :: rest in
      Returned (setValue e1 (insertBetween (value e1) (cursor e1) blocks))
  end.

(** [erase()], lines 313-333. *)
Definition isBrace (v : jsstring) (i : Z) : bool :=
  JS.eqAt v i lbrace || JS.eqAt v i rbrace.

Definition erase (fuel : nat) (e : t) : option t :=
  let current := cursor e in
  let previous := cursor e - 1 in
  let v := value e in
  parts <- (if isBrace v previous then
              co <- findCommandAt fuel v current ;;
              Some (JS.slice v 0 (Some (JS.toInteger (start co))),
                    JS.slice v (end_ co + 1) None)
            else
              Some (JS.slice v 0 (Some (current - 1)),
                    JS.slice v current None)) ;;
  let '(before, rest) := parts in
  Some {| value := before ++ rest;
          cursor := JS.length before;
          console := console e |}.

(** [handleInput(which, char)], lines 232-260.  [which] is a key code or
    [null] ([None]); [char] is a string or [undefined] ([None]).  The
    [switch] compares with [===], so [null] selects no case; [if (which)]
    holds for a number other than 0; [!char] holds for [undefined] and for
    the empty string. *)
Definition keyIs (which : option Z) (k : Z) : bool :=
  match which with Some w => w =? k | None => false end.

Definition reportKey (which : option Z) (e : t) : t :=
  match which with
  | Some k => if k =? 0 then e else warn e k
  | None => e
  end.

Definition handleInput (fuel : nat) (which : option Z)
           (char : option jsstring) (e : t) : option t :=
  if keyIs which KEY_LEFT then
    if 0 <? cursor e then updateCursor fuel (-1) e else Some e
  else if keyIs which KEY_RIGHT then
    if cursor e <? JS.length (value e) then updateCursor fuel 1 e
    else Some e
  else if keyIs which KEY_BACKSPACE then erase fuel e
  else
    let e := reportKey which e in
    match char with
    | Some (c :: text) => Some (insert (c :: text) e)
    | _ => Some e
    end.

(** *** The public operations and their sequences *)





(** *** Predicates of the claims *)



(** Index [b] holds the opening brace of a command: the first [{] after
    some backslash. *)
Definition opensCommandBlock (v : jsstring) (b : Z) : Prop :=
  JS.eqAt v b lbrace = true /\
  exists s, s < b /\
    JS.eqAt v s backslash = true /\
    forall j, s < j < b -> JS.eqAt v j lbrace = false.

(** Index [c] is the start of an empty block: just after [{], on [}]. *)
Definition atEmptyBlock (v : jsstring) (c : Z) : Prop :=
  JS.eqAt v (c - 1) lbrace = true /\ JS.eqAt v c rbrace = true.

(** [i] is the first index from [from] on that holds a [}] not followed
    by [{]. *)
Definition firstClosing (v : jsstring) (from i : Z) : Prop :=
  from <= i /\ closes v i = true /\
  forall k, from <= k < i -> closes v k = false.

(** *** The keyboard listener *)

(** [handleInputEvent(e)], lines 203-222, the listener of [keydown] and
    [keyup] on the input element.  The text the element holds when the
    event fires is the argument [inputValue]; the listener empties the
    element once it has read it.  [isWhiteSpace] holds for the code units
    below 256 that [String.prototype.trim] strips: tab, line feed,
    vertical tab, form feed, carriage return, space and no-break space. *)
Inductive eventType : Type :=
| keydown
| keyup.

Record KeyboardEvent : Type := {
  type : eventType;
  keyCode : Z
}.

Definition isWhiteSpace (c : ascii) : bool :=
  let n := nat_of_ascii c in
  ((9 <=? n) && (n <=? 13) || (n =? 32) || (n =? 160))%nat.

Fixpoint trimStart (s : jsstring) : jsstring :=
  match s with
  | c :: s' => if isWhiteSpace c then trimStart s' else s
  | [] => []
  end.

Definition trim (s : jsstring) : jsstring :=
  rev (trimStart (rev (trimStart s))).

(** [chars.forEach(char => this.handleInput(which, char))] *)
Fixpoint forEachChar (fuel : nat) (which : option Z) (chars : jsstring)
         (e : t) : option t :=
  match chars with
  | [] => Some e
  | c :: chars' =>
      e' <- handleInput fuel which (Some [c]) e ;;
      forEachChar fuel which chars' e'
  end.

Definition handleInputEvent (fuel : nat) (ev : KeyboardEvent)
           (inputValue : jsstring) (e : t) : option t :=
  let inputValue := trim inputValue in
  let which := match type ev with
               | keyup => None
               | keydown => Some (keyCode ev)
               end in
  match inputValue with
  | [] => handleInput fuel which None e
  | _ :: _ => forEachChar fuel which inputValue e
  end.

(** *** Predicates of the further properties *)

(** [s] is the nearest index at or below [position] that holds a
    backslash. *)
Definition nearestBackslash (v : jsstring) (position s : Z) : Prop :=
  0 <= s <= position /\ JS.eqAt v s backslash = true /\
  forall k, s < k <= position -> JS.eqAt v k backslash = false.

(** [j] is the first index from [from] on that holds an opening brace. *)
Definition firstBrace (v : jsstring) (from j : Z) : Prop :=
  from <= j /\ JS.eqAt v j lbrace = true /\
  forall k, from <= k < j -> JS.eqAt v k lbrace = false.

(** How many times the character [ch] occurs in [s]. *)
Definition occurrences (ch : ascii) (s : jsstring) : nat :=
  count_occ ascii_dec s ch.


End Editor.

Import Editor.

(** * Facts about the primitives *)

Section Primitives.

Variable v : jsstring.

Lemma length_nonneg : 0 <= JS.length v.
Proof. unfold JS.length; lia. Qed.

Lemma get_some_range (i : Z) (c : ascii) :
  JS.get v i = Some c -> 0 <= i < JS.length v.
Proof.
  unfold JS.get, JS.length.
  destruct (Z.ltb_spec i 0) as [Hneg | Hpos]; [discriminate |].
  intros Hnth.
  assert (Hlt : (Z.to_nat i < List.length v)%nat)
    by (apply nth_error_Some; congruence).
  lia.
Qed.

Lemma eqAt_range (i : Z) (c : ascii) :
  JS.eqAt v i c = true -> 0 <= i < JS.length v.
Proof.
  unfold JS.eqAt.
  destruct (JS.get v i) as [d |] eqn:Hget; [| discriminate].
  intros _; exact (get_some_range _ _ Hget).
Qed.

Lemma eqAt_get (i : Z) (c : ascii) :
  JS.eqAt v i c = true <-> JS.get v i = Some c.
Proof.
  unfold JS.eqAt.
  destruct (JS.get v i) as [d |]; split; intros H; try discriminate.
  - apply Ascii.eqb_eq in H; congruence.
  - injection H as ->; apply Ascii.eqb_refl.
Qed.

Lemma eqAt_outside (i : Z) (c : ascii) :
  i < 0 \/ JS.length v <= i -> JS.eqAt v i c = false.
Proof.
  intros Hout.
  destruct (JS.eqAt v i c) eqn:Heq; [| reflexivity].
  apply eqAt_range in Heq; lia.
Qed.

Lemma eqAt_distinct (i : Z) (c d : ascii) :
  c <> d -> JS.eqAt v i c = true -> JS.eqAt v i d = false.
Proof.
  intros Hcd Hc.
  destruct (JS.eqAt v i d) eqn:Hd; [| reflexivity].
  apply eqAt_get in Hc, Hd; congruence.
Qed.

Lemma relative_offset (len k : Z) :
  0 <= k -> JS.relative len k = Z.min k len.
Proof.
  intros Hk; unfold JS.relative.
  destruct (Z.ltb_spec k 0); [lia | reflexivity].
Qed.

(** [slice(0, a)] keeps the first [a] characters when [a] is an offset. *)
Lemma slice_prefix (a : Z) :
  0 <= a -> JS.slice v 0 (Some a) = firstn (Z.to_nat a) v.
Proof.
  intros Ha.
  unfold JS.slice.
  rewrite !relative_offset by lia.
  pose proof length_nonneg as Hlen.
  rewrite (Z.min_l 0) by lia.
  rewrite Z.sub_0_r; simpl.
  destruct (Z.le_gt_cases a (JS.length v)) as [Hle | Hgt].
  - now rewrite Z.min_l.
  - rewrite Z.min_r by lia.
    unfold JS.length in *.
    rewrite !firstn_all2; auto; lia.
Qed.

(** [slice(a)] drops the first [a] characters when [a] is not negative. *)
Lemma slice_suffix (a : Z) :
  0 <= a -> JS.slice v a None = skipn (Z.to_nat a) v.
Proof.
  intros Ha.
  unfold JS.slice.
  rewrite relative_offset by lia.
  unfold JS.length.
  destruct (Z.le_gt_cases a (Z.of_nat (List.length v))) as [Hle | Hgt].
  - rewrite Z.min_l by lia.
    apply firstn_all2. rewrite length_skipn; lia.
  - rewrite Z.min_r by lia.
    rewrite Nat2Z.id, !skipn_all2 by lia.
    now rewrite firstn_nil.
Qed.

Lemma insertBetween_length (i : Z) (fragment : jsstring) :
  JS.length (insertBetween v i fragment)
  = JS.length v + JS.length fragment.
Proof.
  unfold insertBetween, JS.length.
  rewrite !length_app.
  rewrite <- (firstn_skipn (Z.to_nat i) v) at 3.
  rewrite length_app; lia.
Qed.

End Primitives.

(** [slice(0, -1)] drops the last character: the negative end counts from
    the end of the string. *)
Lemma slice_to_minus_one (v : jsstring) :
  JS.slice v 0 (Some (-1)) = removelast v.
Proof.
  unfold JS.slice.
  rewrite (relative_offset _ 0) by lia.
  rewrite (Z.min_l 0) by apply length_nonneg.
  rewrite Z.sub_0_r.
  unfold JS.relative, JS.length; simpl.
  induction v as [| c w _] using rev_ind; [reflexivity |].
  rewrite removelast_last, length_app; simpl.
  replace (Z.to_nat (Z.max (Z.of_nat (List.length w + 1) + -1) 0))
    with (List.length w) by lia.
  rewrite firstn_app, Nat.sub_diag, firstn_all; simpl.
  now rewrite app_nil_r.
Qed.

(** * Facts about the loops *)

Section Loops.

Variable hit : Z -> bool.



(** From a counter that is not negative the decreasing loop ends. *)
Lemma whileDec_ends (fuel : nat) (i : Z) :
  0 <= i -> (Z.to_nat i < fuel)%nat ->
  exists r, whileDec fuel hit i = Some r /\ decExit hit i r.
Proof.
  revert i.
  induction fuel as [| n IH]; intros i Hi Hfuel; [lia |].
  simpl.
  destruct (Z.eqb_spec i 0) as [-> | Hnz].
  - exists (Finished (-1)); repeat split; intros; lia.
  - destruct (hit (i - 1)) eqn:Hhit.
    + exists (Broke (i - 1)); simpl.
      split; [reflexivity |].
      split; [lia | split; [assumption | intros k Hk; lia]].
    + destruct (IH (i - 1)) as [r [Hrun Hexit]]; try lia.
      exists r; split; [assumption |].
      destruct r as [j | j]; simpl in *.
      * destruct Hexit as [Hj [Hhj Hbetween]].
        repeat split; try lia; auto.
        intros k Hk.
        destruct (Z.eq_dec k (i - 1)) as [-> | Hne]; [assumption |].
        apply Hbetween; lia.
      * destruct Hexit as [-> Hnone]; split; [reflexivity |].
        intros k Hk.
        destruct (Z.eq_dec k (i - 1)) as [-> | Hne]; [assumption |].
        apply Hnone; lia.
Qed.

(** From a negative counter it never ends, unless some negative index
    hits: the test never reads 0. *)
Lemma whileDec_diverges (fuel : nat) (i : Z) :
  i < 0 -> (forall k, k < 0 -> hit k = false) ->
  whileDec fuel hit i = None.
Proof.
  intros Hi Hneg; revert i Hi.
  induction fuel as [| n IH]; intros i Hi; [reflexivity |].
  simpl.
  destruct (Z.eqb_spec i 0) as [-> | _]; [lia |].
  rewrite Hneg by lia.
  apply IH; lia.
Qed.

(** The increasing loop always ends. *)
Lemma whileInc_ends (fuel : nat) (length i : Z) :
  (Z.to_nat (length - i) < fuel)%nat ->
  exists r, whileInc fuel hit length i = Some r /\ incExit hit length i r.
Proof.
  revert i.
  induction fuel as [| n IH]; intros i Hfuel; [lia |].
  simpl.
  destruct (Z.ltb_spec i length) as [Hlt | Hge].
  - destruct (hit (i + 1)) eqn:Hhit.
    + exists (Broke (i + 1)); simpl.
      split; [reflexivity |].
      split; [lia | split; [assumption | intros k Hk; lia]].
    + destruct (IH (i + 1)) as [r [Hrun Hexit]]; try lia.
      exists r; split; [assumption |].
      destruct r as [j | j]; simpl in *.
      * destruct Hexit as [Hj [Hhj Hbetween]].
        repeat split; try lia; auto.
        intros k Hk.
        destruct (Z.eq_dec k (i + 1)) as [-> | Hne]; [assumption |].
        apply Hbetween; lia.
      * destruct Hexit as [-> Hnone]; split; [lia |].
        intros k Hk.
        destruct (Z.eq_dec k (i + 1)) as [-> | Hne]; [assumption |].
        apply Hnone; lia.
  - exists (Finished (i + 1)); simpl; split; [reflexivity |].
    split; [lia |].
    intros k Hk; lia.
Qed.

End Loops.

(** * Facts about [insertBetween] at an offset of the text *)

Section Splice.

Variables (v fragment : jsstring) (c : Z).
Hypothesis offset : 0 <= c <= JS.length v.

Lemma prefix_length : List.length (firstn (Z.to_nat c) v) = Z.to_nat c.
Proof. unfold JS.length in offset. rewrite length_firstn; lia. Qed.

Lemma insertBetween_prefix :
  firstn (Z.to_nat c) (insertBetween v c fragment) = firstn (Z.to_nat c) v.
Proof.
  unfold insertBetween.
  rewrite firstn_app, prefix_length, Nat.sub_diag; simpl.
  rewrite app_nil_r.
  apply firstn_all2; rewrite prefix_length; lia.
Qed.

Lemma insertBetween_suffix :
  skipn (Z.to_nat (c + JS.length fragment)) (insertBetween v c fragment)
  = skipn (Z.to_nat c) v.
Proof.
  unfold insertBetween, JS.length.
  rewrite app_assoc.
  replace (Z.to_nat (c + Z.of_nat (List.length fragment)))
    with (List.length (firstn (Z.to_nat c) v ++ fragment))
    by (rewrite length_app, prefix_length; lia).
  now rewrite skipn_app, skipn_all, Nat.sub_diag.
Qed.

Lemma insertBetween_get (k : Z) :
  0 <= k < JS.length fragment ->
  JS.get (insertBetween v c fragment) (c + k) = JS.get fragment k.
Proof.
  intros Hk.
  unfold JS.get, insertBetween, JS.length in *.
  destruct (Z.ltb_spec (c + k) 0); [lia |].
  destruct (Z.ltb_spec k 0); [lia |].
  rewrite nth_error_app2 by (rewrite prefix_length; lia).
  rewrite prefix_length.
  replace (Z.to_nat (c + k) - Z.to_nat c)%nat with (Z.to_nat k) by lia.
  apply nth_error_app1; lia.
Qed.

End Splice.

(** * The mutators *)

Lemma editor_eta (e : t) :
  {| value := value e; cursor := cursor e; console := console e |} = e.
Proof. now destruct e. Qed.

Lemma isBrace_false_get (v : jsstring) (i : Z) (ch : ascii) :
  JS.get v i = Some ch -> ch <> lbrace -> ch <> rbrace ->
  isBrace v i = false.
Proof.
  intros Hget Hl Hr.
  unfold isBrace.
  apply orb_false_iff; split.
  - destruct (JS.eqAt v i lbrace) eqn:H; [| reflexivity].
    apply eqAt_get in H; congruence.
  - destruct (JS.eqAt v i rbrace) eqn:H; [| reflexivity].
    apply eqAt_get in H; congruence.
Qed.

Lemma isBrace_range (v : jsstring) (i : Z) :
  isBrace v i = true -> 0 <= i < JS.length v.
Proof.
  unfold isBrace; intros H.
  apply orb_true_iff in H as [H | H]; exact (eqAt_range _ _ _ H).
Qed.

(** The ordinary branch of [erase], taken when the character before the
    cursor is not a brace; it runs no loop. *)
Lemma erase_ordinary (fuel : nat) (e : t) :
  isBrace (value e) (cursor e - 1) = false ->
  erase fuel e
  = Some {| value := JS.slice (value e) 0 (Some (cursor e - 1))
                       ++ JS.slice (value e) (cursor e) None;
            cursor := JS.length (JS.slice (value e) 0 (Some (cursor e - 1)));
            console := console e |}.
Proof. intros H; unfold erase; now rewrite H. Qed.

(** With the cursor at 0 the end of the first slice is -1, which counts
    from the end: [erase] puts a copy of the text without its last
    character in front of the text. *)
Lemma erase_at_zero (fuel : nat) (e : t) :
  cursor e = 0 ->
  erase fuel e
  = Some {| value := removelast (value e) ++ value e;
            cursor := JS.length (removelast (value e));
            console := console e |}.
Proof.
  intros Hc.
  rewrite erase_ordinary
    by (rewrite Hc; unfold isBrace; now rewrite !eqAt_outside by lia).
  rewrite Hc; simpl.
  rewrite slice_to_minus_one, slice_suffix by lia.
  reflexivity.
Qed.

(** C2 (evaluation of the code): [erase] with the cursor at 0 on the text
    [abc] returns the text [ababc] and the cursor 2; neither the buffer
    nor the cursor is unchanged. *)
Theorem erase_at_zero_duplicates :
  let e := {| value := JS.lit "abc"; cursor := 0; console := [] |} in
  erase 0 e
  = Some {| value := JS.lit "ababc"; cursor := 2; console := [] |}
  /\ erase 0 e <> Some e.
Proof.
  intros e; split.
  - apply (erase_at_zero 0 e); reflexivity.
  - rewrite (erase_at_zero 0 e) by reflexivity; discriminate.
Qed.

(** C5: for a cursor in [-1 .. length], [insert] lengthens the buffer by
    the length of the text and advances the cursor by the same amount; at
    the sentinel -1 the text is put in front of the buffer and the cursor
    becomes the length of the text minus 1. *)
Theorem insert_length_cursor (text : jsstring) (e : t) :
  -1 <= cursor e <= JS.length (value e) ->
  JS.length (value (insert text e))
  = JS.length (value e) + JS.length text
  /\ cursor (insert text e) = cursor e + JS.length text
  /\ (cursor e = -1 ->
      value (insert text e) = text ++ value e
      /\ cursor (insert text e) = JS.length text - 1).
Proof.
  intros Hrange.
  unfold insert.
  destruct (Z.eqb_spec (cursor e) (-1)) as [Hs | Hs]; simpl.
  - repeat split; try lia.
    unfold JS.length; rewrite length_app; lia.
  - repeat split; try lia.
    apply insertBetween_length.
Qed.

Lemma insert_length_cursor_witness :
  let e := {| value := JS.lit "ab"; cursor := -1; console := [] |} in
  -1 <= cursor e <= JS.length (value e)
  /\ JS.length (value (insert (JS.lit "xyz") e)) = 2 + 3
  /\ cursor (insert (JS.lit "xyz") e) = -1 + 3
  /\ value (insert (JS.lit "xyz") e) = JS.lit "xyzab".
Proof.
  intros e.
  assert (Hrange : -1 <= cursor e <= JS.length (value e))
    by (unfold JS.length; simpl; lia).
  destruct (insert_length_cursor (JS.lit "xyz") e Hrange)
    as [Hlen [Hcur Hsentinel]].
  destruct (Hsentinel eq_refl) as [Hval _].
  repeat split; try exact Hlen; try exact Hcur; try exact Hval;
    unfold JS.length; simpl; lia.
Defined.

(** C7 (as amended): for a cursor that is an offset of the buffer,
    [0 <= c <= length], and a character that is neither brace, [insert]
    of that one character followed by [erase] gives back the editor as it
    was: the same buffer, the same cursor. *)
Theorem erase_insert_roundtrip (fuel : nat) (ch : ascii) (e : t) :
  0 <= cursor e <= JS.length (value e) ->
  ch <> lbrace -> ch <> rbrace ->
  erase fuel (insert [ch] e) = Some e.
Proof.
  intros Hc Hl Hr.
  assert (Hins : insert [ch] e
                 = {| value := insertBetween (value e) (cursor e) [ch];
                      cursor := cursor e + 1;
                      console := console e |}).
  { unfold insert.
    destruct (Z.eqb_spec (cursor e) (-1)) as [Hs | _]; [lia | reflexivity]. }
  rewrite Hins.
  assert (Hget : JS.get (insertBetween (value e) (cursor e) [ch]) (cursor e)
                 = Some ch).
  { rewrite <- (Z.add_0_r (cursor e)) at 2.
    rewrite insertBetween_get; [reflexivity | assumption |].
    unfold JS.length; simpl; lia. }
  rewrite erase_ordinary; simpl;
    replace (cursor e + 1 - 1) with (cursor e) by lia.
  2: exact (isBrace_false_get _ _ _ Hget Hl Hr).
  rewrite slice_prefix, slice_suffix by lia.
  rewrite insertBetween_prefix by assumption.
  change 1 with (JS.length [ch]).
  rewrite insertBetween_suffix by assumption.
  rewrite firstn_skipn.
  unfold JS.length at 1; rewrite prefix_length by assumption.
  rewrite Z2Nat.id by lia.
  apply f_equal, editor_eta.
Qed.

Lemma erase_insert_roundtrip_witness :
  let e := {| value := JS.lit "a+b"; cursor := 1; console := [] |} in
  0 <= cursor e <= JS.length (value e)
  /\ erase 0 (insert [backslash] e) = Some e.
Proof.
  intros e.
  assert (Hc : 0 <= cursor e <= JS.length (value e))
    by (unfold JS.length; simpl; lia).
  split; [exact Hc |].
  apply (erase_insert_roundtrip 0 backslash e Hc); discriminate.
Defined.

(** C7 (as stated) fails at the sentinel: on the empty buffer with the
    cursor at -1, inserting [a] and erasing leaves the buffer [a] and the
    cursor 0. *)
Lemma erase_insert_at_sentinel :
  let e := {| value := []; cursor := -1; console := [] |} in
  -1 <= cursor e <= JS.length (value e)
  /\ erase 9 (insert (JS.lit "a") e)
     = Some {| value := JS.lit "a"; cursor := 0; console := [] |}
  /\ erase 9 (insert (JS.lit "a") e) <> Some e.
Proof.
  intros e; split; [unfold JS.length; simpl; lia |].
  split; [reflexivity | discriminate].
Qed.

(** C9: a key code other than left-arrow, right-arrow and backspace (or
    no key code at all) with no typed character leaves the buffer and the
    cursor as they are; a key code other than 0 is reported on the
    console and nothing else happens. *)
Theorem handleInput_unrecognized (fuel : nat) (which : option Z)
        (char : option jsstring) (e : t) :
  which <> Some KEY_LEFT -> which <> Some KEY_RIGHT ->
  which <> Some KEY_BACKSPACE ->
  char = None \/ char = Some [] ->
  exists e',
    handleInput fuel which char e = Some e'
    /\ value e' = value e
    /\ cursor e' = cursor e
    /\ console e' = match which with
                    | Some k => if k =? 0 then console e
                                else console e ++ [k]
                    | None => console e
                    end.
Proof.
  intros Hleft Hright Hback Hchar.
  assert (Hkey : forall k, which <> Some k -> keyIs which k = false).
  { intros k Hne; destruct which as [w |]; simpl; [| reflexivity].
    destruct (Z.eqb_spec w k); congruence. }
  unfold handleInput.
  rewrite !Hkey by assumption.
  exists (reportKey which e).
  split.
  - destruct Hchar as [-> | ->]; reflexivity.
  - destruct which as [k |]; simpl; [| auto].
    destruct (k =? 0); simpl; auto.
Qed.

Lemma handleInput_unrecognized_witness :
  let e := {| value := JS.lit "x^2"; cursor := 3; console := [] |} in
  Some 65 <> Some KEY_LEFT
  /\ exists e',
       handleInput 0 (Some 65) None e = Some e'
       /\ value e' = value e /\ cursor e' = cursor e
       /\ console e' = [65].
Proof.
  intros e.
  split; [discriminate |].
  apply (handleInput_unrecognized 0 (Some 65) None e);
    try discriminate; left; reflexivity.
Defined.

(** * More fuel does not change a result *)







(** * The command locator *)

Section Locator.

Variables (v : jsstring) (position : Z) (fuel : nat).

Lemma closes_range (i : Z) : closes v i = true -> 0 <= i < JS.length v.
Proof.
  unfold closes; intros H.
  apply andb_true_iff in H as [H _]; exact (eqAt_range _ _ _ H).
Qed.

(** For a position from -1 on, both loops end; [start] is the nearest
    backslash at or before [position], [end] the counter of the second
    loop. *)
Lemma findCommandAt_ends :
  -1 <= position ->
  (Z.to_nat (position + 1) < fuel)%nat ->
  (Z.to_nat (JS.length v - position + 1) < fuel)%nat ->
  exists a b,
    decExit (fun i => JS.eqAt v i backslash) (position + 1) a
    /\ incExit (closes v) (JS.length v) (position - 1) b
    /\ findCommandAt fuel v position
       = Some {| start := match a with
                          | Broke i => Some i
                          | Finished _ => None
                          end;
                 end_ := counter b |}.
Proof.
  intros Hpos Hdec Hinc.
  destruct (whileDec_ends (fun i => JS.eqAt v i backslash) fuel
                          (position + 1)) as [a [Ha Hea]]; try lia.
  destruct (whileInc_ends (closes v) fuel (JS.length v) (position - 1))
    as [b [Hb Heb]]; [lia |].
  exists a, b; repeat split; try assumption.
  unfold findCommandAt; now rewrite Ha, Hb.
Qed.

(** Below -1 the first loop starts from a negative counter and never
    ends. *)
Lemma findCommandAt_diverges :
  position < -1 -> findCommandAt fuel v position = None.
Proof.
  intros Hpos; unfold findCommandAt.
  rewrite whileDec_diverges; [reflexivity | lia |].
  intros k Hk; apply eqAt_outside; lia.
Qed.

End Locator.

(** C3 (as amended): for a position from -1 on, [findCommandAt] returns,
    and its [end] is the first index [i >= position] that holds a closing
    brace not followed by an opening one; when no index from [position]
    on is such, [end] is the value the loop counter holds on exit,
    [length + 1], or [position] itself when that is larger. *)
Theorem locate_end_first_closing (fuel : nat) (v : jsstring) (position : Z) :
  -1 <= position ->
  (Z.to_nat (position + 1) < fuel)%nat ->
  (Z.to_nat (JS.length v - position + 1) < fuel)%nat ->
  exists co,
    findCommandAt fuel v position = Some co
    /\ (forall i, firstClosing v position i -> end_ co = i)
    /\ ((forall k, position <= k -> closes v k = false) ->
        end_ co = Z.max position (JS.length v + 1)).
Proof.
  intros Hpos Hdec Hinc.
  destruct (findCommandAt_ends v position fuel Hpos Hdec Hinc)
    as [a [b [_ [Hb Hrun]]]].
  eexists; split; [exact Hrun |]; simpl.
  destruct b as [j | j]; simpl in *.
  - destruct Hb as [Hj [Hhit Hbefore]].
    split.
    + intros i [Hfrom [Hi Hfirst]].
      destruct (Z.lt_trichotomy i j) as [Hlt | [Heq | Hgt]].
      * rewrite Hbefore in Hi by lia; discriminate.
      * now symmetry.
      * rewrite Hfirst in Hhit by lia; discriminate.
    + intros Hnone; rewrite Hnone in Hhit by lia; discriminate.
  - destruct Hb as [-> Hnone].
    split.
    + intros i [Hfrom [Hi _]].
      pose proof (closes_range _ _ Hi) as Hrange.
      rewrite Hnone in Hi by lia; discriminate.
    + intros _; lia.
Qed.

Lemma locate_end_first_closing_witness :
  let v := JS.lit "\frac{a}{b}+c" in
  firstClosing v 3 10
  /\ exists co, findCommandAt 20 v 3 = Some co /\ end_ co = 10.
Proof.
  intros v.
  assert (Hfirst : firstClosing v 3 10).
  { split; [lia |]; split; [reflexivity |].
    intros k Hk.
    assert (Hcases : k = 3 \/ k = 4 \/ k = 5 \/ k = 6 \/ k = 7 \/ k = 8
                     \/ k = 9) by lia.
    repeat (destruct Hcases as [-> | Hcases]; [reflexivity |]).
    subst k; reflexivity. }
  split; [exact Hfirst |].
  destruct (locate_end_first_closing 20 v 3) as [co [Hrun [Hend _]]];
    try (unfold JS.length; simpl; lia).
  exists co; split; [exact Hrun | exact (Hend 10 Hfirst)].
Defined.

(** C3 (as stated) fails: on the buffer made of one closing brace, with
    position 1, index 0 is the first index from [position - 1] on that
    holds a closing brace not followed by an opening one, yet [end] is
    2. *)
Lemma end_skips_index_before_position :
  let v := JS.lit "}" in
  firstClosing v (1 - 1) 0
  /\ findCommandAt 5 v 1 = Some {| start := None; end_ := 2 |}.
Proof.
  intros v; split; [| reflexivity].
  split; [lia |]; split; [reflexivity |].
  intros k Hk; lia.
Qed.

(** * Cursor moves *)

(** C10: from a cursor [c >= 1], when the character at [c - 1] is an
    opening brace and no backslash occurs before it, the move to the left
    leaves the cursor at the sentinel -1: the backward scan passes index 0
    and its counter, -1, becomes the cursor. *)
Theorem moveLeft_without_backslash (fuel : nat) (e : t) :
  1 <= cursor e ->
  JS.eqAt (value e) (cursor e - 1) lbrace = true ->
  (forall j, 0 <= j < cursor e - 1 ->
             JS.eqAt (value e) j backslash = false) ->
  (Z.to_nat (cursor e) <= fuel)%nat ->
  updateCursor fuel (-1) e = Some (setCursor e (-1))
  /\ handleInput fuel (Some KEY_LEFT) None e = Some (setCursor e (-1)).
Proof.
  intros Hc Hbrace Hnone Hfuel.
  assert (Hmove : updateCursor fuel (-1) e = Some (setCursor e (-1))).
  { unfold updateCursor, leftTarget; simpl.
    replace (cursor e + -1) with (cursor e - 1) by lia.
    rewrite Hbrace.
    destruct (whileDec_ends (fun i => JS.eqAt (value e) i backslash) fuel
                            (cursor e - 1)) as [r [Hrun Hexit]]; try lia.
    rewrite Hrun.
    destruct r as [j | j]; simpl in *.
    - destruct Hexit as [Hj [Hhit _]].
      rewrite Hnone in Hhit by lia; discriminate.
    - destruct Hexit as [-> _]; reflexivity. }
  split; [exact Hmove |].
  unfold handleInput; simpl.
  destruct (Z.ltb_spec 0 (cursor e)); [exact Hmove | lia].
Qed.

Lemma moveLeft_without_backslash_witness :
  let e := {| value := JS.lit "ab{"; cursor := 3; console := [] |} in
  JS.eqAt (value e) (cursor e - 1) lbrace = true
  /\ handleInput 3 (Some KEY_LEFT) None e = Some (setCursor e (-1)).
Proof.
  intros e.
  split; [reflexivity |].
  apply (moveLeft_without_backslash 3 e).
  - simpl; lia.
  - reflexivity.
  - intros j Hj; simpl in Hj.
    assert (Hcases : j = 0 \/ j = 1) by lia.
    destruct Hcases as [-> | ->]; reflexivity.
  - simpl; lia.
Defined.

Lemma stepOver_after_brace (v : jsstring) (n : Z) :
  JS.eqAt v (stepOver v n) lbrace = true ->
  JS.eqAt v (stepOver v n - 1) lbrace = true.
Proof.
  unfold stepOver.
  destruct (JS.eqAt v n lbrace) eqn:Hn; intros Hr.
  - now replace (n + 1 - 1) with n by lia.
  - congruence.
Qed.

Lemma rightTarget_ends (fuel : nat) (v : jsstring) (current next : Z) :
  (Z.to_nat (JS.length v - next) < fuel)%nat ->
  exists n, rightTarget fuel v current next = Some n.
Proof.
  intros Hfuel; unfold rightTarget, skipName.
  destruct (JS.eqAt v current backslash); [| now exists next].
  destruct (whileInc_ends (fun i => JS.eqAt v i lbrace) fuel (JS.length v)
                          next Hfuel) as [r [Hrun _]].
  rewrite Hrun; now eexists.
Qed.

(** C8: a move to the right returns; when the position it reaches holds
    an opening brace the cursor goes one further, and the cursor it
    leaves is never on the opening brace of a command (the first opening
    brace after a backslash): an opening brace under the cursor always
    has another opening brace just before it. *)
Theorem moveRight_steps_over_brace (fuel : nat) (amount : Z) (e : t) :
  0 < amount ->
  (Z.to_nat (JS.length (value e) - (cursor e + amount)) < fuel)%nat ->
  exists target e',
    rightTarget fuel (value e) (cursor e) (cursor e + amount) = Some target
    /\ updateCursor fuel amount e = Some e'
    /\ value e' = value e
    /\ (JS.eqAt (value e) target lbrace = true -> cursor e' = target + 1)
    /\ (JS.eqAt (value e) target lbrace = false -> cursor e' = target)
    /\ (JS.eqAt (value e) (cursor e') lbrace = true ->
        JS.eqAt (value e) (cursor e' - 1) lbrace = true)
    /\ ~ opensCommandBlock (value e) (cursor e').
Proof.
  intros Hamount Hfuel.
  destruct (rightTarget_ends fuel (value e) (cursor e) (cursor e + amount)
                             Hfuel) as [target Htarget].
  exists target, (setCursor e (stepOver (value e) target)).
  split; [exact Htarget |].
  split.
  { unfold updateCursor.
    destruct (Z.ltb_spec amount 0); [lia |].
    destruct (Z.ltb_spec 0 amount); [| lia].
    now rewrite Htarget. }
  simpl.
  split; [reflexivity |].
  split; [unfold stepOver; now intros -> |].
  split; [unfold stepOver; now intros -> |].
  split; [apply stepOver_after_brace |].
  intros [Hbrace [s [Hs [Hback Hname]]]].
  apply stepOver_after_brace in Hbrace.
  destruct (Z.eq_dec s (stepOver (value e) target - 1)) as [Heq | Hne].
  - rewrite <- Heq in Hbrace.
    rewrite (eqAt_distinct _ _ backslash lbrace) in Hbrace;
      [discriminate | discriminate | assumption].
  - rewrite Hname in Hbrace by lia; discriminate.
Qed.

Lemma moveRight_steps_over_brace_witness :
  let e := {| value := JS.lit "x\sqrt{2}"; cursor := 5; console := [] |} in
  0 < 1
  /\ exists target e',
       rightTarget 9 (value e) (cursor e) (cursor e + 1) = Some target
       /\ updateCursor 9 1 e = Some e'
       /\ (JS.eqAt (value e) target lbrace = true -> cursor e' = target + 1)
       /\ ~ opensCommandBlock (value e) (cursor e').
Proof.
  intros e.
  split; [lia |].
  destruct (moveRight_steps_over_brace 9 1 e)
    as [target [e' [Htarget [Hmove [_ [Hover [_ [_ Hnot]]]]]]]].
  - lia.
  - unfold JS.length; simpl; lia.
  - exists target, e'; auto.
Defined.

(** * Command templates *)

Section Template.

Variables (v first second : jsstring) (c : Z).
Hypothesis offset : 0 <= c <= JS.length v.

Lemma insertBetween_through :
  firstn (Z.to_nat (c + JS.length first)) (insertBetween v c first)
  = firstn (Z.to_nat c) v ++ first.
Proof.
  unfold insertBetween, JS.length.
  replace (Z.to_nat (c + Z.of_nat (List.length first)))
    with (List.length (firstn (Z.to_nat c) v ++ first))
    by (rewrite length_app, prefix_length by assumption; lia).
  rewrite (app_assoc _ first).
  rewrite firstn_app, firstn_all, Nat.sub_diag; simpl.
  apply app_nil_r.
Qed.

(** Splicing [second] where the splice of [first] ended puts the two
    fragments one after the other at [c]. *)
Lemma insertBetween_twice :
  insertBetween (insertBetween v c first) (c + JS.length first) second
  = insertBetween v c (first ++ second).
Proof.
  unfold insertBetween at 1.
  rewrite insertBetween_suffix, insertBetween_through by assumption.
  unfold insertBetween.
  now rewrite <- !app_assoc.
Qed.

End Template.

Lemma repeat_blocks (n : Z) :
  0 <= n ->
  JS.repeat [lbrace; rbrace] n
  = Some (List.concat (List.repeat [lbrace; rbrace] (Z.to_nat n))).
Proof.
  intros Hn; unfold JS.repeat.
  destruct (Z.ltb_spec n 0); [lia | reflexivity].
Qed.

(** X23: [insertCommand] of [\sqrt] with one block on the empty buffer
    with the cursor at 0 gives the buffer [\sqrt{}] and the cursor 6.
    From a cursor that is an offset of the buffer, [0 <= c <= length],
    and for a block count of at least 1, the command, its opening brace,
    the closing brace and the further empty blocks are spliced in at
    [c]; the cursor stays where [insert] left it, just after the opening
    brace and on the closing one: at the start of the first empty
    block. *)
Theorem insertCommand_first_block :
  insertCommand (JS.lit "\sqrt") 1 init
  = Returned {| value := JS.lit "\sqrt{}"; cursor := 6; console := [] |}
  /\ forall (command : jsstring) (blockCount : Z) (e : t),
      0 <= cursor e <= JS.length (value e) ->
      1 <= blockCount ->
      exists e',
        insertCommand command blockCount e = Returned e'
        /\ value e'
           = insertBetween (value e) (cursor e)
               (command ++ [lbrace] ++ [rbrace]
                ++ List.concat (List.repeat [lbrace; rbrace]
                                            (Z.to_nat (blockCount - 1))))
        /\ cursor e' = cursor (insert (command ++ [lbrace]) e)
        /\ cursor e' = cursor e + JS.length command + 1
        /\ atEmptyBlock (value e') (cursor e').
Proof.
  split; [reflexivity |].
  intros command blockCount e Hc Hcount.
  set (rest := List.concat (List.repeat [lbrace; rbrace]
                                        (Z.to_nat (blockCount - 1)))).
  assert (Hins : insert (command ++ [lbrace]) e
                 = {| value := insertBetween (value e) (cursor e)
                                 (command ++ [lbrace]);
                      cursor := cursor e + JS.length (command ++ [lbrace]);
                      console := console e |}).
  { unfold insert.
    destruct (Z.eqb_spec (cursor e) (-1)) as [Hs | _]; [lia | reflexivity]. }
  assert (Hlen : JS.length (command ++ [lbrace]) = JS.length command + 1).
  { unfold JS.length; rewrite length_app; simpl; lia. }
  assert (Hvalue :
            insertBetween
              (insertBetween (value e) (cursor e) (command ++ [lbrace]))
              (cursor e + JS.length (command ++ [lbrace])) (rbrace :: rest)
            = insertBetween (value e) (cursor e)
                (command ++ [lbrace] ++ [rbrace] ++ rest)).
  { rewrite insertBetween_twice by assumption.
    now rewrite <- app_assoc. }
  eexists; split.
  { unfold insertCommand.
    rewrite repeat_blocks by lia.
    rewrite Hins; unfold setValue; simpl.
    fold rest; rewrite Hvalue; reflexivity. }
  simpl.
  split; [reflexivity |].
  split; [now rewrite Hins |].
  split; [lia |].
  assert (Hfrag : forall k ch,
             nth_error ([lbrace] ++ [rbrace] ++ rest) k = Some ch ->
             JS.get (insertBetween (value e) (cursor e)
                       (command ++ [lbrace] ++ [rbrace] ++ rest))
                    (cursor e + (JS.length command + Z.of_nat k))
             = Some ch).
  { intros k ch Hk.
    assert (Hbound : (k < List.length ([lbrace] ++ [rbrace] ++ rest))%nat)
      by (apply nth_error_Some; congruence).
    rewrite insertBetween_get; try assumption.
    - unfold JS.get, JS.length.
      destruct (Z.ltb_spec (Z.of_nat (List.length command) + Z.of_nat k) 0);
        [lia |].
      rewrite nth_error_app2 by lia.
      replace (Z.to_nat (Z.of_nat (List.length command) + Z.of_nat k)
               - List.length command)%nat with k by lia.
      exact Hk.
    - unfold JS.length; rewrite length_app; lia. }
  split; apply eqAt_get.
  - replace (cursor e + JS.length (command ++ [lbrace]) - 1)
      with (cursor e + (JS.length command + Z.of_nat 0)) by lia.
    now apply Hfrag.
  - replace (cursor e + JS.length (command ++ [lbrace]))
      with (cursor e + (JS.length command + Z.of_nat 1)) by lia.
    now apply Hfrag.
Qed.

Lemma insertCommand_first_block_witness :
  let e := {| value := JS.lit "ab"; cursor := 1; console := [] |} in
  0 <= cursor e <= JS.length (value e)
  /\ exists e',
       insertCommand (JS.lit "\frac") 2 e = Returned e'
       /\ value e' = JS.lit "a\frac{}{}b"
       /\ cursor e' = 7.
Proof.
  intros e.
  assert (Hc : 0 <= cursor e <= JS.length (value e))
    by (unfold JS.length; simpl; lia).
  split; [exact Hc |].
  destruct (proj2 insertCommand_first_block (JS.lit "\frac") 2 e Hc)
    as [e' [Hrun [Hvalue [_ [Hcursor _]]]]]; [lia |].
  exists e'; split; [exact Hrun |].
  split; [exact Hvalue | exact Hcursor].
Defined.

(** C6 (evaluation of the code): from the buffer [{] with the cursor at
    the sentinel -1, [insertCommand] of [\sqrt] with one block gives the
    buffer [\sqrt}{{] and the cursor 5, which is on the closing brace but
    not after an opening one: the closing brace went in before the
    opening brace of the command, and the cursor is not in a block. *)
Lemma insertCommand_at_sentinel :
  let e := {| value := JS.lit "{"; cursor := -1; console := [] |} in
  insertCommand (JS.lit "\sqrt") 1 e
  = Returned {| value := JS.lit "\sqrt}{{"; cursor := 5; console := [] |}
  /\ ~ atEmptyBlock (JS.lit "\sqrt}{{") 5.
Proof.
  intros e; split; [reflexivity |].
  intros [Hopen _]; discriminate.
Qed.

(** * The range of the cursor *)








(** * Further properties of the locator *)

(** X1: for a position from -1 on, [findCommandAt] returns, and its
    [start] is the index of the nearest backslash at or before
    [position]; it stays unset exactly when no index up to [position]
    holds a backslash. *)
Theorem locate_start_nearest_backslash (fuel : nat) (v : jsstring)
        (position : Z) :
  -1 <= position ->
  (Z.to_nat (position + 1) < fuel)%nat ->
  (Z.to_nat (JS.length v - position + 1) < fuel)%nat ->
  exists co,
    findCommandAt fuel v position = Some co
    /\ (forall s, nearestBackslash v position s -> start co = Some s)
    /\ ((forall k, 0 <= k <= position -> JS.eqAt v k backslash = false) ->
        start co = None)
    /\ (forall s, start co = Some s -> nearestBackslash v position s).
Proof.
  intros Hpos Hdec Hinc.
  destruct (findCommandAt_ends v position fuel Hpos Hdec Hinc)
    as [a [b [Ha [_ Hrun]]]].
  eexists; split; [exact Hrun |]; simpl.
  destruct a as [j | j]; simpl in Ha.
  - destruct Ha as [Hj [Hhit Hafter]].
    split; [| split].
    + intros s [Hs [Hback Hnearest]].
      destruct (Z.lt_trichotomy s j) as [Hlt | [-> | Hgt]].
      * rewrite Hnearest in Hhit by lia; discriminate.
      * reflexivity.
      * rewrite Hafter in Hback by lia; discriminate.
    + intros Hnone; rewrite Hnone in Hhit by lia; discriminate.
    + intros s Hs; injection Hs as <-.
      split; [lia |]; split; [assumption |].
      intros k Hk; apply Hafter; lia.
  - destruct Ha as [_ Hnone].
    split; [| split].
    + intros s [Hs [Hback _]].
      rewrite Hnone in Hback by lia; discriminate.
    + reflexivity.
    + discriminate.
Qed.

Lemma locate_start_nearest_backslash_witness :
  let v := JS.lit "a\b+\sqrt{2}" in
  nearestBackslash v 7 4
  /\ exists co, findCommandAt 20 v 7 = Some co /\ start co = Some 4.
Proof.
  intros v.
  assert (Hnear : nearestBackslash v 7 4).
  { split; [lia |]; split; [reflexivity |].
    intros k Hk.
    assert (Hcases : k = 5 \/ k = 6 \/ k = 7) by lia.
    destruct Hcases as [-> | [-> | ->]]; reflexivity. }
  split; [exact Hnear |].
  destruct (locate_start_nearest_backslash 20 v 7)
    as [co [Hrun [Hstart _]]]; try (unfold JS.length; simpl; lia).
  exists co; split; [exact Hrun | exact (Hstart 4 Hnear)].
Defined.

(** X2: for a position below -1, [findCommandAt] never returns: its
    first loop starts from a negative counter, which the test [i--]
    never finds equal to 0. *)
Theorem locate_below_sentinel_never_returns (fuel : nat) (v : jsstring)
        (position : Z) :
  position < -1 -> findCommandAt fuel v position = None.
Proof.
  intros Hpos; unfold findCommandAt.
  assert (Hloop : whileDec fuel (fun i => JS.eqAt v i backslash)
                           (position + 1) = None).
  { apply whileDec_diverges; [lia |].
    intros k Hk; apply eqAt_outside; lia. }
  now rewrite Hloop.
Qed.

Lemma locate_below_sentinel_never_returns_witness :
  -2 < -1 /\ findCommandAt 1000 (JS.lit "\sqrt{2}") (-2) = None.
Proof.
  split; [lia |].
  apply (locate_below_sentinel_never_returns 1000 (JS.lit "\sqrt{2}") (-2)).
  lia.
Defined.

(** * Further properties of the cursor moves *)

Lemma leftTarget_ends (fuel : nat) (v : jsstring) (next : Z) :
  (List.length v <= fuel)%nat ->
  exists n, leftTarget fuel v next = Some n
            /\ (JS.eqAt v next lbrace = false -> n = next)
            /\ (JS.eqAt v next lbrace = true ->
                exists r, decExit (fun i => JS.eqAt v i backslash) next r
                          /\ n = counter r).
Proof.
  intros Hfuel; unfold leftTarget.
  destruct (JS.eqAt v next lbrace) eqn:Hbrace.
  - pose proof (eqAt_range _ _ _ Hbrace) as Hrange.
    unfold JS.length in Hrange.
    destruct (whileDec_ends (fun i => JS.eqAt v i backslash) fuel next)
      as [r [Hrun Hexit]]; try lia.
    rewrite Hrun; exists (counter r).
    split; [reflexivity |]; split; [discriminate |].
    intros _; now exists r.
  - exists next; split; [reflexivity |]; split; [reflexivity | discriminate].
Qed.

Lemma rightTarget_scan (fuel : nat) (v : jsstring) (current next : Z) :
  (JS.eqAt v current backslash = true ->
   (Z.to_nat (JS.length v - next) < fuel)%nat) ->
  exists n, rightTarget fuel v current next = Some n
            /\ (JS.eqAt v current backslash = false -> n = next)
            /\ (JS.eqAt v current backslash = true ->
                exists r, incExit (fun i => JS.eqAt v i lbrace)
                                  (JS.length v) next r
                          /\ n = counter r + 1).
Proof.
  intros Hfuel; unfold rightTarget, skipName.
  destruct (JS.eqAt v current backslash) eqn:Hback.
  - destruct (whileInc_ends (fun i => JS.eqAt v i lbrace) fuel (JS.length v)
                            next (Hfuel eq_refl)) as [r [Hrun Hexit]].
    rewrite Hrun; exists (counter r + 1).
    split; [reflexivity |]; split; [discriminate |].
    intros _; now exists r.
  - exists next; split; [reflexivity |]; split; [reflexivity | discriminate].
Qed.

Lemma updateCursor_left (fuel : nat) (e : t) (n : Z) :
  leftTarget fuel (value e) (cursor e - 1) = Some n ->
  updateCursor fuel (-1) e = Some (setCursor e n).
Proof.
  intros Hleft; unfold updateCursor; simpl.
  replace (cursor e + -1) with (cursor e - 1) by lia.
  now rewrite Hleft.
Qed.

Lemma updateCursor_right (fuel : nat) (e : t) (n : Z) :
  rightTarget fuel (value e) (cursor e) (cursor e + 1) = Some n ->
  updateCursor fuel 1 e = Some (setCursor e (stepOver (value e) n)).
Proof. intros Hright; unfold updateCursor; simpl; now rewrite Hright. Qed.

Lemma stepOver_cases (v : jsstring) (n : Z) :
  (stepOver v n = n /\ JS.eqAt v n lbrace = false)
  \/ (stepOver v n = n + 1 /\ 0 <= n < JS.length v).
Proof.
  unfold stepOver.
  destruct (JS.eqAt v n lbrace) eqn:Hbrace; [right | left; auto].
  apply eqAt_range in Hbrace; auto.
Qed.

(** X3: the left-arrow key returns, never touches the buffer or the
    console, does nothing when the cursor is 0 or the sentinel, and
    otherwise moves the cursor to a strictly smaller value that is not
    below -1. *)
Theorem leftKey_moves_back (fuel : nat) (e : t) :
  (List.length (value e) <= fuel)%nat ->
  exists e',
    handleInput fuel (Some KEY_LEFT) None e = Some e'
    /\ value e' = value e /\ console e' = console e
    /\ (cursor e <= 0 -> e' = e)
    /\ (0 < cursor e -> -1 <= cursor e' < cursor e).
Proof.
  intros Hfuel.
  unfold handleInput; simpl.
  destruct (Z.ltb_spec 0 (cursor e)) as [Hpos | Hnot].
  - destruct (leftTarget_ends fuel (value e) (cursor e - 1) Hfuel)
      as [n [Hrun [Hplain Hscan]]].
    rewrite (updateCursor_left _ _ _ Hrun).
    eexists; split; [reflexivity |]; simpl.
    split; [reflexivity |]; split; [reflexivity |].
    split; [lia |]; intros _.
    destruct (JS.eqAt (value e) (cursor e - 1) lbrace) eqn:Hbrace.
    + destruct (Hscan eq_refl) as [r [Hexit ->]].
      destruct r as [j | j]; simpl in *; lia.
    + rewrite (Hplain eq_refl); lia.
  - exists e; repeat split; auto; lia.
Qed.

Lemma leftKey_moves_back_witness :
  let e := {| value := JS.lit "x\sqrt{2}"; cursor := 7; console := [] |} in
  (List.length (value e) <= 9)%nat
  /\ exists e',
       handleInput 9 (Some KEY_LEFT) None e = Some e'
       /\ value e' = value e /\ -1 <= cursor e' < 7.
Proof.
  intros e.
  assert (Hfuel : (List.length (value e) <= 9)%nat) by (simpl; lia).
  split; [exact Hfuel |].
  destruct (leftKey_moves_back 9 e Hfuel)
    as [e' [Hrun [Hvalue [_ [_ Hless]]]]].
  exists e'; split; [exact Hrun |]; split; [exact Hvalue |].
  apply Hless; simpl; lia.
Defined.

(** X4: the right-arrow key returns, never touches the buffer or the
    console, does nothing when the cursor is at or past the end, and
    otherwise moves the cursor to a strictly larger value, at most two
    past the end of the buffer. *)
Theorem rightKey_moves_forward (fuel : nat) (e : t) :
  (List.length (value e) <= fuel)%nat ->
  exists e',
    handleInput fuel (Some KEY_RIGHT) None e = Some e'
    /\ value e' = value e /\ console e' = console e
    /\ (JS.length (value e) <= cursor e -> e' = e)
    /\ (cursor e < JS.length (value e) ->
        cursor e < cursor e' <= JS.length (value e) + 2).
Proof.
  intros Hfuel.
  assert (Hlen : JS.length (value e) = Z.of_nat (List.length (value e)))
    by reflexivity.
  unfold handleInput; simpl.
  destruct (Z.ltb_spec (cursor e) (JS.length (value e))) as [Hlt | Hge].
  - destruct (rightTarget_scan fuel (value e) (cursor e) (cursor e + 1))
      as [n [Hrun [Hplain Hscan]]].
    { intros Hback; apply eqAt_range in Hback; lia. }
    rewrite (updateCursor_right _ _ _ Hrun).
    eexists; split; [reflexivity |]; simpl.
    split; [reflexivity |]; split; [reflexivity |].
    split; [lia |]; intros _.
    destruct (JS.eqAt (value e) (cursor e) backslash) eqn:Hback.
    + destruct (Hscan eq_refl) as [r [Hexit Hn]].
      destruct r as [j | j]; simpl in *.
      * destruct Hexit as [Hj [Hhit _]].
        apply eqAt_range in Hhit.
        destruct (stepOver_cases (value e) n) as [[-> _] | [-> Hin]]; lia.
      * destruct Hexit as [Hj _].
        destruct (stepOver_cases (value e) n) as [[-> _] | [-> Hin]]; lia.
    + rewrite (Hplain eq_refl) in *.
      destruct (stepOver_cases (value e) (cursor e + 1))
        as [[-> _] | [-> Hin]]; lia.
  - exists e; repeat split; auto; lia.
Qed.

Lemma rightKey_moves_forward_witness :
  let e := {| value := JS.lit "x\sqrt{2}"; cursor := 1; console := [] |} in
  (List.length (value e) <= 9)%nat
  /\ exists e',
       handleInput 9 (Some KEY_RIGHT) None e = Some e'
       /\ value e' = value e /\ 1 < cursor e' <= 9 + 2.
Proof.
  intros e.
  assert (Hfuel : (List.length (value e) <= 9)%nat) by (simpl; lia).
  split; [exact Hfuel |].
  destruct (rightKey_moves_forward 9 e Hfuel)
    as [e' [Hrun [Hvalue [_ [_ Hmore]]]]].
  exists e'; split; [exact Hrun |]; split; [exact Hvalue |].
  apply Hmore; unfold JS.length; simpl; lia.
Defined.

Lemma leftTarget_backslash (fuel : nat) (v : jsstring) (next s : Z) :
  JS.eqAt v next lbrace = true ->
  nearestBackslash v (next - 1) s ->
  (List.length v <= fuel)%nat ->
  leftTarget fuel v next = Some s.
Proof.
  intros Hbrace [Hs [Hback Hnearest]] Hfuel.
  destruct (leftTarget_ends fuel v next Hfuel) as [n [Hrun [_ Hscan]]].
  destruct (Hscan Hbrace) as [r [Hexit ->]].
  rewrite Hrun; f_equal.
  destruct r as [j | j]; simpl in *.
  - destruct Hexit as [Hj [Hhit Hafter]].
    destruct (Z.lt_trichotomy s j) as [Hlt | [Heq | Hgt]]; [| auto |].
    + rewrite Hnearest in Hhit by lia; discriminate.
    + rewrite Hafter in Hback by lia; discriminate.
  - destruct Hexit as [_ Hnone].
    rewrite Hnone in Hback by lia; discriminate.
Qed.

Lemma rightTarget_brace (fuel : nat) (v : jsstring) (c j : Z) :
  JS.eqAt v c backslash = true ->
  firstBrace v (c + 2) j ->
  (List.length v <= fuel)%nat ->
  rightTarget fuel v c (c + 1) = Some (j + 1).
Proof.
  intros Hback [Hj [Hbrace Hfirst]] Hfuel.
  pose proof (eqAt_range _ _ _ Hback) as Hc.
  assert (Hlen : JS.length v = Z.of_nat (List.length v)) by reflexivity.
  destruct (rightTarget_scan fuel v c (c + 1)) as [n [Hrun [_ Hscan]]];
    [intros _; lia |].
  destruct (Hscan Hback) as [r [Hexit ->]].
  rewrite Hrun; do 2 f_equal.
  destruct r as [k | k]; simpl in *.
  - destruct Hexit as [Hk [Hhit Hbefore]].
    destruct (Z.lt_trichotomy j k) as [Hlt | [Heq | Hgt]]; [| auto |].
    + rewrite Hbefore in Hbrace by lia; discriminate.
    + rewrite Hfirst in Hhit by lia; discriminate.
  - destruct Hexit as [_ Hnone].
    apply eqAt_range in Hbrace as Hjr.
    rewrite Hnone in Hbrace by lia; discriminate.
Qed.

Lemma rightTarget_past_end (fuel : nat) (v : jsstring) (c : Z) :
  JS.eqAt v c backslash = true ->
  (forall k, c + 2 <= k -> JS.eqAt v k lbrace = false) ->
  (List.length v <= fuel)%nat ->
  rightTarget fuel v c (c + 1) = Some (JS.length v + 2).
Proof.
  intros Hback Hnone Hfuel.
  pose proof (eqAt_range _ _ _ Hback) as Hc.
  assert (Hlen : JS.length v = Z.of_nat (List.length v)) by reflexivity.
  destruct (rightTarget_scan fuel v c (c + 1)) as [n [Hrun [_ Hscan]]];
    [intros _; lia |].
  destruct (Hscan Hback) as [r [Hexit ->]].
  rewrite Hrun; f_equal.
  destruct r as [k | k]; simpl in *.
  - destruct Hexit as [Hk [Hhit _]].
    rewrite Hnone in Hhit by lia; discriminate.
  - destruct Hexit as [-> _]; lia.
Qed.

Lemma leftKey_run (fuel : nat) (e : t) (n : Z) :
  0 < cursor e ->
  leftTarget fuel (value e) (cursor e - 1) = Some n ->
  handleInput fuel (Some KEY_LEFT) None e = Some (setCursor e n).
Proof.
  intros Hpos Hleft; unfold handleInput; simpl.
  destruct (Z.ltb_spec 0 (cursor e)); [| lia].
  now apply updateCursor_left.
Qed.

Lemma rightKey_run (fuel : nat) (e : t) (n : Z) :
  cursor e < JS.length (value e) ->
  rightTarget fuel (value e) (cursor e) (cursor e + 1) = Some n ->
  handleInput fuel (Some KEY_RIGHT) None e
  = Some (setCursor e (stepOver (value e) n)).
Proof.
  intros Hlt Hright; unfold handleInput; simpl.
  destruct (Z.ltb_spec (cursor e) (JS.length (value e))); [| lia].
  now apply updateCursor_right.
Qed.

(** X5: when the character before the cursor is an opening brace and a
    backslash occurs before that brace, the left-arrow key puts the
    cursor on the nearest such backslash: the command name and its brace
    are passed in one step. *)
Theorem leftKey_lands_on_backslash (fuel : nat) (e : t) (s : Z) :
  JS.eqAt (value e) (cursor e - 1) lbrace = true ->
  nearestBackslash (value e) (cursor e - 2) s ->
  (List.length (value e) <= fuel)%nat ->
  handleInput fuel (Some KEY_LEFT) None e = Some (setCursor e s)
  /\ JS.eqAt (value e) s backslash = true.
Proof.
  intros Hbrace Hnear Hfuel.
  pose proof (eqAt_range _ _ _ Hbrace) as Hc.
  split; [| apply Hnear].
  apply leftKey_run; [lia |].
  apply leftTarget_backslash; try assumption.
  now replace (cursor e - 1 - 1) with (cursor e - 2) by lia.
Qed.

Lemma leftKey_lands_on_backslash_witness :
  let e := {| value := JS.lit "1+\frac{a}{b}"; cursor := 8;
              console := [] |} in
  nearestBackslash (value e) (cursor e - 2) 2
  /\ handleInput 13 (Some KEY_LEFT) None e = Some (setCursor e 2).
Proof.
  intros e.
  assert (Hnear : nearestBackslash (value e) (cursor e - 2) 2).
  { split; [simpl; lia |]; split; [reflexivity |].
    intros k Hk; simpl in Hk.
    assert (Hcases : k = 3 \/ k = 4 \/ k = 5 \/ k = 6) by lia.
    destruct Hcases as [-> | [-> | [-> | ->]]]; reflexivity. }
  split; [exact Hnear |].
  apply (leftKey_lands_on_backslash 13 e 2); [reflexivity | exact Hnear |].
  simpl; lia.
Defined.

(** X6: with the cursor on a backslash, the right-arrow key passes the
    command name: the cursor goes just after the first opening brace
    found two or more places after the backslash, and one further when
    another opening brace follows at once. *)
Theorem rightKey_skips_command_name (fuel : nat) (e : t) (j : Z) :
  JS.eqAt (value e) (cursor e) backslash = true ->
  firstBrace (value e) (cursor e + 2) j ->
  (List.length (value e) <= fuel)%nat ->
  exists e',
    handleInput fuel (Some KEY_RIGHT) None e = Some e'
    /\ value e' = value e
    /\ (JS.eqAt (value e) (j + 1) lbrace = false -> cursor e' = j + 1)
    /\ (JS.eqAt (value e) (j + 1) lbrace = true -> cursor e' = j + 2).
Proof.
  intros Hback Hfirst Hfuel.
  pose proof (eqAt_range _ _ _ Hback) as Hc.
  rewrite (rightKey_run fuel e (j + 1));
    [| lia | now apply rightTarget_brace].
  eexists; split; [reflexivity |]; simpl.
  split; [reflexivity |].
  unfold stepOver; split; intros ->; lia.
Qed.

Lemma rightKey_skips_command_name_witness :
  let e := {| value := JS.lit "1+\frac{a}{b}"; cursor := 2;
              console := [] |} in
  firstBrace (value e) (cursor e + 2) 7
  /\ exists e',
       handleInput 13 (Some KEY_RIGHT) None e = Some e' /\ cursor e' = 8.
Proof.
  intros e.
  assert (Hfirst : firstBrace (value e) (cursor e + 2) 7).
  { split; [simpl; lia |]; split; [reflexivity |].
    intros k Hk; simpl in Hk.
    assert (Hcases : k = 4 \/ k = 5 \/ k = 6) by lia.
    destruct Hcases as [-> | [-> | ->]]; reflexivity. }
  split; [exact Hfirst |].
  destruct (rightKey_skips_command_name 13 e 7)
    as [e' [Hrun [_ [Hplain _]]]];
    [reflexivity | exact Hfirst | simpl; lia |].
  exists e'; split; [exact Hrun | now apply Hplain].
Defined.

(** X7: with the cursor on a backslash and no opening brace two or more
    places after it, the right-arrow key leaves the cursor two past the
    end of the buffer: the scan runs off the end and its counter is
    taken as if it had found a brace. *)
Theorem rightKey_runs_past_end (fuel : nat) (e : t) :
  JS.eqAt (value e) (cursor e) backslash = true ->
  (forall k, cursor e + 2 <= k -> JS.eqAt (value e) k lbrace = false) ->
  (List.length (value e) <= fuel)%nat ->
  handleInput fuel (Some KEY_RIGHT) None e
  = Some (setCursor e (JS.length (value e) + 2)).
Proof.
  intros Hback Hnone Hfuel.
  pose proof (eqAt_range _ _ _ Hback) as Hc.
  rewrite (rightKey_run fuel e (JS.length (value e) + 2));
    [| lia | now apply rightTarget_past_end].
  unfold stepOver; now rewrite eqAt_outside by lia.
Qed.

Lemma rightKey_runs_past_end_witness :
  let e := {| value := JS.lit "x\pi"; cursor := 1; console := [] |} in
  JS.eqAt (value e) (cursor e) backslash = true
  /\ handleInput 4 (Some KEY_RIGHT) None e = Some (setCursor e 6).
Proof.
  intros e.
  split; [reflexivity |].
  apply (rightKey_runs_past_end 4 e); [reflexivity | | simpl; lia].
  intros k Hk; simpl in Hk.
  destruct (Z.eq_dec k 3) as [-> | Hne]; [reflexivity |].
  apply eqAt_outside; unfold JS.length; simpl; lia.
Defined.

(** X8: over a command whose name holds no further backslash and whose
    opening brace is not followed by another one, the right-arrow key
    from the backslash and then the left-arrow key bring the editor back
    to where it was. *)
Theorem rightKey_leftKey_over_name (fuel : nat) (e : t) (j : Z) :
  JS.eqAt (value e) (cursor e) backslash = true ->
  firstBrace (value e) (cursor e + 2) j ->
  JS.eqAt (value e) (j + 1) lbrace = false ->
  (forall k, cursor e < k < j -> JS.eqAt (value e) k backslash = false) ->
  (List.length (value e) <= fuel)%nat ->
  exists e',
    handleInput fuel (Some KEY_RIGHT) None e = Some e'
    /\ cursor e' = j + 1
    /\ handleInput fuel (Some KEY_LEFT) None e' = Some e.
Proof.
  intros Hback Hfirst Hnext Hname Hfuel.
  pose proof (eqAt_range _ _ _ Hback) as Hc.
  pose proof Hfirst as [Hj [Hbrace _]].
  rewrite (rightKey_run fuel e (j + 1));
    [| lia | now apply rightTarget_brace].
  unfold stepOver; rewrite Hnext.
  eexists; split; [reflexivity |]; split; [reflexivity |].
  rewrite (leftKey_run fuel _ (cursor e)); simpl; try lia.
  - unfold setCursor; simpl; now rewrite editor_eta.
  - replace (j + 1 - 1) with j by lia.
    apply leftTarget_backslash; try assumption.
    split; [lia |]; split; [assumption |].
    intros k Hk; apply Hname; lia.
Qed.

Lemma rightKey_leftKey_over_name_witness :
  let e := {| value := JS.lit "\sqrt{2}"; cursor := 0; console := [] |} in
  firstBrace (value e) (cursor e + 2) 5
  /\ exists e',
       handleInput 8 (Some KEY_RIGHT) None e = Some e'
       /\ cursor e' = 6
       /\ handleInput 8 (Some KEY_LEFT) None e' = Some e.
Proof.
  intros e.
  assert (Hfirst : firstBrace (value e) (cursor e + 2) 5).
  { split; [simpl; lia |]; split; [reflexivity |].
    intros k Hk; simpl in Hk.
    assert (Hcases : k = 2 \/ k = 3 \/ k = 4) by lia.
    destruct Hcases as [-> | [-> | ->]]; reflexivity. }
  split; [exact Hfirst |].
  apply (rightKey_leftKey_over_name 8 e 5);
    [reflexivity | exact Hfirst | reflexivity | | simpl; lia].
  intros k Hk; simpl in Hk.
  assert (Hcases : k = 1 \/ k = 2 \/ k = 3 \/ k = 4) by lia.
  destruct Hcases as [-> | [-> | [-> | ->]]]; reflexivity.
Defined.

(** X9: on a character that is neither a backslash nor an opening brace,
    and is not followed by an opening brace, the right-arrow key moves
    the cursor by one and the left-arrow key moves it back; no loop
    runs. *)
Theorem rightKey_leftKey_plain (fuel : nat) (e : t) :
  0 <= cursor e < JS.length (value e) ->
  JS.eqAt (value e) (cursor e) backslash = false ->
  JS.eqAt (value e) (cursor e) lbrace = false ->
  JS.eqAt (value e) (cursor e + 1) lbrace = false ->
  handleInput fuel (Some KEY_RIGHT) None e
  = Some (setCursor e (cursor e + 1))
  /\ handleInput fuel (Some KEY_LEFT) None (setCursor e (cursor e + 1))
     = Some e.
Proof.
  intros Hc Hback Hbrace Hnext.
  split.
  - rewrite (rightKey_run fuel e (cursor e + 1)); [| lia |].
    + unfold stepOver; now rewrite Hnext.
    + unfold rightTarget; now rewrite Hback.
  - rewrite (leftKey_run fuel _ (cursor e)); simpl; try lia.
    + unfold setCursor; simpl; now rewrite editor_eta.
    + unfold leftTarget.
      replace (cursor e + 1 - 1) with (cursor e) by lia.
      now rewrite Hbrace.
Qed.

Lemma rightKey_leftKey_plain_witness :
  let e := {| value := JS.lit "a+b"; cursor := 1; console := [] |} in
  0 <= cursor e < JS.length (value e)
  /\ handleInput 0 (Some KEY_RIGHT) None e = Some (setCursor e 2)
  /\ handleInput 0 (Some KEY_LEFT) None (setCursor e 2) = Some e.
Proof.
  intros e.
  assert (Hc : 0 <= cursor e < JS.length (value e))
    by (unfold JS.length; simpl; lia).
  split; [exact Hc |].
  apply (rightKey_leftKey_plain 0 e Hc); reflexivity.
Defined.

(** * Further properties of [erase] *)

(** Negative arguments of [slice] count from the end of the text. *)
Lemma slice_from_end (v : jsstring) (k : Z) :
  0 < k ->
  JS.slice v 0 (Some (- k)) = firstn (List.length v - Z.to_nat k) v
  /\ JS.slice v (- k) None = skipn (List.length v - Z.to_nat k) v.
Proof.
  intros Hk.
  unfold JS.slice.
  rewrite (relative_offset _ 0) by lia.
  rewrite (Z.min_l 0) by apply length_nonneg.
  unfold JS.relative.
  destruct (Z.ltb_spec (- k) 0) as [_ | Hge]; [| lia].
  unfold JS.length; simpl.
  replace (Z.to_nat (Z.max (Z.of_nat (List.length v) + - k) 0))
    with (List.length v - Z.to_nat k)%nat by lia.
  split.
  - now rewrite Z.sub_0_r, Z2Nat.inj_max; simpl;
      replace (Init.Nat.max (Z.to_nat (Z.of_nat (List.length v) + - k)) 0)
        with (List.length v - Z.to_nat k)%nat by lia.
  - apply firstn_all2; rewrite length_skipn; lia.
Qed.

(** X10: with the cursor inside the buffer, [1 <= c <= length], and a
    character before it that is not a brace, [erase] removes that one
    character and moves the cursor back by one; no loop runs. *)
Theorem erase_removes_previous_character (fuel : nat) (e : t) :
  1 <= cursor e <= JS.length (value e) ->
  isBrace (value e) (cursor e - 1) = false ->
  erase fuel e
  = Some {| value := firstn (Z.to_nat (cursor e - 1)) (value e)
                     ++ skipn (Z.to_nat (cursor e)) (value e);
            cursor := cursor e - 1;
            console := console e |}
  /\ JS.length (firstn (Z.to_nat (cursor e - 1)) (value e)
                ++ skipn (Z.to_nat (cursor e)) (value e))
     = JS.length (value e) - 1.
Proof.
  intros Hc Hplain.
  assert (Hkept : JS.length (firstn (Z.to_nat (cursor e - 1)) (value e))
                  = cursor e - 1).
  { unfold JS.length in *; rewrite length_firstn; lia. }
  split.
  - rewrite erase_ordinary by assumption.
    rewrite slice_prefix, slice_suffix by lia.
    now rewrite Hkept.
  - unfold JS.length in *.
    rewrite length_app, length_firstn, length_skipn; lia.
Qed.

Lemma erase_removes_previous_character_witness :
  let e := {| value := JS.lit "x^2+1"; cursor := 3; console := [] |} in
  1 <= cursor e <= JS.length (value e)
  /\ erase 0 e
     = Some {| value := JS.lit "x^+1"; cursor := 2; console := [] |}.
Proof.
  intros e.
  assert (Hc : 1 <= cursor e <= JS.length (value e))
    by (unfold JS.length; simpl; lia).
  split; [exact Hc |].
  exact (proj1 (erase_removes_previous_character 0 e Hc eq_refl)).
Defined.

(** X11: with the cursor past the end of the buffer, [erase] removes
    nothing and brings the cursor back to the end. *)
Theorem erase_past_end_restores_cursor (fuel : nat) (e : t) :
  JS.length (value e) < cursor e ->
  erase fuel e
  = Some {| value := value e;
            cursor := JS.length (value e);
            console := console e |}.
Proof.
  intros Hpast.
  pose proof (length_nonneg (value e)) as Hlen.
  rewrite erase_ordinary.
  - rewrite slice_prefix, slice_suffix by lia.
    unfold JS.length in *.
    rewrite firstn_all2, skipn_all2 by lia.
    now rewrite app_nil_r.
  - unfold isBrace; now rewrite !eqAt_outside by lia.
Qed.

Lemma erase_past_end_restores_cursor_witness :
  let e := {| value := JS.lit "x\pi"; cursor := 6; console := [] |} in
  JS.length (value e) < cursor e
  /\ erase 0 e = Some {| value := JS.lit "x\pi"; cursor := 4;
                         console := [] |}.
Proof.
  intros e.
  assert (Hpast : JS.length (value e) < cursor e)
    by (unfold JS.length; simpl; lia).
  split; [exact Hpast |].
  exact (erase_past_end_restores_cursor 0 e Hpast).
Defined.

(** X12: with the cursor at the sentinel -1, the two slices of [erase]
    take -2 and -1, which count from the end: the last character but one
    is removed, wherever it is, and the cursor is put where it stood; a
    buffer of fewer than two characters is left as it is, with the
    cursor at 0. *)
Theorem erase_at_sentinel_removes_last_but_one (fuel : nat) (e : t) :
  cursor e = -1 ->
  erase fuel e
  = Some {| value := firstn (List.length (value e) - 2) (value e)
                     ++ skipn (List.length (value e) - 1) (value e);
            cursor := Z.of_nat (List.length (value e) - 2);
            console := console e |}.
Proof.
  intros Hc.
  rewrite erase_ordinary
    by (rewrite Hc; unfold isBrace; now rewrite !eqAt_outside by lia).
  rewrite Hc; simpl.
  destruct (slice_from_end (value e) 2) as [Hbefore _]; [lia |].
  destruct (slice_from_end (value e) 1) as [_ Hrest]; [lia |].
  simpl in Hbefore, Hrest; rewrite Hbefore, Hrest.
  unfold JS.length; rewrite length_firstn.
  do 2 f_equal; lia.
Qed.

Lemma erase_at_sentinel_removes_last_but_one_witness :
  let e := {| value := JS.lit "abc{"; cursor := -1; console := [] |} in
  cursor e = -1
  /\ erase 0 e = Some {| value := JS.lit "ab{"; cursor := 2;
                         console := [] |}.
Proof.
  intros e.
  split; [reflexivity |].
  exact (erase_at_sentinel_removes_last_but_one 0 e eq_refl).
Defined.

(** X13: with the cursor inside the buffer, [1 <= c <= length], [erase]
    returns a strictly shorter buffer and a cursor that is not negative
    and not larger than before, whether it removes one character or a
    command. *)
Theorem erase_shortens_buffer (fuel : nat) (e : t) :
  1 <= cursor e <= JS.length (value e) ->
  (List.length (value e) + 2 <= fuel)%nat ->
  exists e',
    erase fuel e = Some e'
    /\ JS.length (value e') < JS.length (value e)
    /\ 0 <= cursor e' <= cursor e
    /\ console e' = console e.
Proof.
  intros Hc Hfuel.
  assert (Hlen : JS.length (value e) = Z.of_nat (List.length (value e)))
    by reflexivity.
  destruct (isBrace (value e) (cursor e - 1)) eqn:Hbrace.
  - destruct (findCommandAt_ends (value e) (cursor e) fuel)
      as [a [b [Ha [Hb Hrun]]]]; try lia.
    set (s := JS.toInteger match a with
                           | Broke i => Some i
                           | Finished _ => None
                           end).
    assert (Hs : 0 <= s <= cursor e /\ s < JS.length (value e)).
    { subst s; destruct a as [j | j]; simpl in *.
      - destruct Ha as [Hj [Hhit _]].
        apply eqAt_range in Hhit; lia.
      - lia. }
    assert (Hend : cursor e <= counter b).
    { destruct b as [j | j]; simpl in *; lia. }
    unfold erase; rewrite Hbrace, Hrun; simpl; fold s.
    rewrite slice_prefix, slice_suffix by lia.
    eexists; split; [reflexivity |]; simpl.
    unfold JS.length in *.
    rewrite length_app, length_firstn, length_skipn.
    repeat split; lia.
  - rewrite erase_ordinary by assumption.
    rewrite slice_prefix, slice_suffix by lia.
    eexists; split; [reflexivity |]; simpl.
    unfold JS.length in *.
    rewrite length_app, length_firstn, length_skipn.
    repeat split; lia.
Qed.

Lemma erase_shortens_buffer_witness :
  let e := {| value := JS.lit "1+\frac{a}{b}"; cursor := 10;
              console := [] |} in
  1 <= cursor e <= JS.length (value e)
  /\ exists e',
       erase 15 e = Some e'
       /\ JS.length (value e') < 13 /\ 0 <= cursor e' <= 10.
Proof.
  intros e.
  assert (Hc : 1 <= cursor e <= JS.length (value e))
    by (unfold JS.length; simpl; lia).
  split; [exact Hc |].
  destruct (erase_shortens_buffer 15 e Hc) as [e' [Hrun [Hshort [Hcur _]]]];
    [simpl; lia |].
  exists e'; split; [exact Hrun |]; split; [exact Hshort | exact Hcur].
Defined.

(** * Further properties of [insert] and [insertCommand] *)

Lemma insert_at_offset (text : jsstring) (e : t) :
  cursor e <> -1 ->
  insert text e
  = {| value := insertBetween (value e) (cursor e) text;
       cursor := cursor e + JS.length text;
       console := console e |}.
Proof.
  intros Hc; unfold insert.
  destruct (Z.eqb_spec (cursor e) (-1)); [contradiction | reflexivity].
Qed.

Lemma length_app_Z (s u : jsstring) :
  JS.length (s ++ u) = JS.length s + JS.length u.
Proof. unfold JS.length; rewrite length_app; lia. Qed.

Lemma insert_twice_is_insert_joined_aux (first second : jsstring) (e : t) :
  0 <= cursor e <= JS.length (value e) ->
  insert second (insert first e) = insert (first ++ second) e.
Proof.
  intros Hc.
  pose proof (length_nonneg first) as Hfirst.
  rewrite (insert_at_offset first e) by lia.
  rewrite insert_at_offset by (simpl; lia).
  rewrite (insert_at_offset (first ++ second)) by lia.
  simpl.
  rewrite insertBetween_twice by assumption.
  rewrite length_app_Z.
  f_equal; lia.
Qed.

(** X14: from a cursor that is an offset of the buffer, inserting one
    text and then another is inserting the two texts joined: each call
    leaves the cursor after what it inserted, and the buffer grows by
    the two lengths. *)
Theorem insert_twice_is_insert_joined (first second : jsstring) (e : t) :
  0 <= cursor e <= JS.length (value e) ->
  insert second (insert first e) = insert (first ++ second) e
  /\ value (insert second (insert first e))
     = firstn (Z.to_nat (cursor e)) (value e)
       ++ first ++ second ++ skipn (Z.to_nat (cursor e)) (value e)
  /\ cursor (insert second (insert first e))
     = cursor e + JS.length first + JS.length second.
Proof.
  intros Hc.
  rewrite insert_twice_is_insert_joined_aux by assumption.
  split; [reflexivity |].
  rewrite insert_at_offset by lia; simpl.
  unfold insertBetween; rewrite <- app_assoc.
  split; [reflexivity |].
  rewrite length_app_Z; lia.
Qed.

Lemma insert_twice_is_insert_joined_witness :
  let e := {| value := JS.lit "a+b"; cursor := 2; console := [] |} in
  0 <= cursor e <= JS.length (value e)
  /\ insert (JS.lit "2}") (insert (JS.lit "\sqrt{") e)
     = {| value := JS.lit "a+\sqrt{2}b"; cursor := 10; console := [] |}.
Proof.
  intros e.
  assert (Hc : 0 <= cursor e <= JS.length (value e))
    by (unfold JS.length; simpl; lia).
  split; [exact Hc |].
  exact (proj1 (insert_twice_is_insert_joined (JS.lit "\sqrt{")
                  (JS.lit "2}") e Hc)).
Defined.



Section Counting.

Variable ch : ascii.

Lemma occurrences_app (s u : jsstring) :
  occurrences ch (s ++ u) = (occurrences ch s + occurrences ch u)%nat.
Proof. apply count_occ_app. Qed.

Lemma occurrences_insertBetween (v fragment : jsstring) (i : Z) :
  occurrences ch (insertBetween v i fragment)
  = (occurrences ch v + occurrences ch fragment)%nat.
Proof.
  unfold occurrences, insertBetween.
  rewrite !count_occ_app.
  rewrite <- (firstn_skipn (Z.to_nat i) v) at 3.
  rewrite count_occ_app; lia.
Qed.

Lemma occurrences_insert (text : jsstring) (e : t) :
  occurrences ch (value (insert text e))
  = (occurrences ch (value e) + occurrences ch text)%nat.
Proof.
  unfold insert.
  destruct (cursor e =? -1); simpl.
  - unfold occurrences; rewrite count_occ_app; lia.
  - apply occurrences_insertBetween.
Qed.

End Counting.

Lemma blocks_length (m : nat) :
  List.length (List.concat (List.repeat [lbrace; rbrace] m)) = (2 * m)%nat.
Proof.
  induction m as [| m IH]; [reflexivity |].
  simpl List.length in *; lia.
Qed.

Lemma occurrences_blocks (m : nat) :
  occurrences lbrace (List.concat (List.repeat [lbrace; rbrace] m)) = m
  /\ occurrences rbrace (List.concat (List.repeat [lbrace; rbrace] m)) = m.
Proof.
  induction m as [| m [IHl IHr]]; [split; reflexivity |].
  split.
  - change (S (occurrences lbrace
                 (List.concat (List.repeat [lbrace; rbrace] m))) = S m).
    now rewrite IHl.
  - change (S (occurrences rbrace
                 (List.concat (List.repeat [lbrace; rbrace] m))) = S m).
    now rewrite IHr.
Qed.

(** X16: for a block count of at least 1 and any cursor, [insertCommand]
    returns, and the buffer gains, besides the characters of the command,
    exactly [blockCount] opening braces and [blockCount] closing braces:
    the braces it adds are balanced. *)
Theorem insertCommand_adds_balanced_braces (command : jsstring)
        (blockCount : Z) (e : t) :
  1 <= blockCount ->
  exists e',
    insertCommand command blockCount e = Returned e'
    /\ occurrences lbrace (value e')
       = (occurrences lbrace (value e) + occurrences lbrace command
          + Z.to_nat blockCount)%nat
    /\ occurrences rbrace (value e')
       = (occurrences rbrace (value e) + occurrences rbrace command
          + Z.to_nat blockCount)%nat
    /\ JS.length (value e')
       = JS.length (value e) + JS.length command + 2 * blockCount.
Proof.
  intros Hcount.
  unfold insertCommand.
  rewrite repeat_blocks by lia.
  eexists; split; [reflexivity |].
  unfold setValue; cbn [value].
  destruct (occurrences_blocks (Z.to_nat (blockCount - 1))) as [Hl Hr].
  assert (Hrest : JS.length (List.concat (List.repeat [lbrace; rbrace]
                                (Z.to_nat (blockCount - 1))))
                  = 2 * (blockCount - 1)).
  { unfold JS.length; rewrite blocks_length; lia. }
  split; [| split].
  - rewrite occurrences_insertBetween, occurrences_insert, occurrences_app.
    assert (Hopen : occurrences lbrace [lbrace] = 1%nat) by reflexivity.
    assert (Hskip : forall s, occurrences lbrace (rbrace :: s)
                              = occurrences lbrace s) by reflexivity.
    rewrite Hopen, Hskip, Hl; lia.
  - rewrite occurrences_insertBetween, occurrences_insert, occurrences_app.
    assert (Hopen : occurrences rbrace [lbrace] = 0%nat) by reflexivity.
    assert (Hkeep : forall s, occurrences rbrace (rbrace :: s)
                              = S (occurrences rbrace s)) by reflexivity.
    rewrite Hopen, Hkeep, Hr; lia.
  - rewrite insertBetween_length.
    assert (Hins : JS.length (value (insert (command ++ [lbrace]) e))
                   = JS.length (value e) + JS.length (command ++ [lbrace])).
    { unfold insert; destruct (cursor e =? -1); simpl.
      - rewrite length_app_Z; lia.
      - apply insertBetween_length. }
    assert (Hcons : forall (c : ascii) (s : jsstring),
               JS.length (c :: s) = 1 + JS.length s).
    { intros c s; unfold JS.length; simpl List.length; lia. }
    rewrite Hins, length_app_Z, !Hcons, Hrest.
    assert (Hnil : JS.length [] = 0) by reflexivity.
    rewrite Hnil; lia.
Qed.

Lemma insertCommand_adds_balanced_braces_witness :
  let e := {| value := JS.lit "{"; cursor := -1; console := [] |} in
  1 <= 2
  /\ exists e',
       insertCommand (JS.lit "\frac") 2 e = Returned e'
       /\ occurrences lbrace (value e') = 3%nat
       /\ occurrences rbrace (value e') = 2%nat.
Proof.
  intros e.
  split; [lia |].
  destruct (insertCommand_adds_balanced_braces (JS.lit "\frac") 2 e)
    as [e' [Hrun [Hl [Hr _]]]]; [lia |].
  exists e'; split; [exact Hrun |]; split; [exact Hl | exact Hr].
Defined.

(** * [erase] after [insertCommand] *)

Lemma insertCommand_returns (command : jsstring) (blockCount : Z) (e : t) :
  0 <= cursor e <= JS.length (value e) ->
  1 <= blockCount ->
  insertCommand command blockCount e
  = Returned
      {| value := insertBetween (value e) (cursor e)
                    (command ++ lbrace :: rbrace
                       :: List.concat (List.repeat [lbrace; rbrace]
                                         (Z.to_nat (blockCount - 1))));
         cursor := cursor e + JS.length command + 1;
         console := console e |}.
Proof.
  intros Hc Hcount.
  unfold insertCommand.
  rewrite repeat_blocks by lia.
  rewrite insert_at_offset by lia.
  unfold setValue; cbn [value cursor console].
  rewrite insertBetween_twice by assumption.
  rewrite <- app_assoc, length_app_Z.
  do 2 f_equal.
  unfold JS.length; simpl; lia.
Qed.

(** The closing brace and the further empty blocks of a template: a
    closing brace at every even index, an opening one at every odd
    index. *)
Lemma template_get (m i : nat) :
  (i <= 2 * m)%nat ->
  nth_error (rbrace :: List.concat (List.repeat [lbrace; rbrace] m)) i
  = Some (if Nat.even i then rbrace else lbrace).
Proof.
  revert i; induction m as [| m IH]; intros i Hi.
  - assert (i = 0%nat) as -> by lia; reflexivity.
  - destruct i as [| [| i]]; [reflexivity | reflexivity |].
    change (nth_error
              (rbrace :: List.concat (List.repeat [lbrace; rbrace] m)) i
            = Some (if Nat.even i then rbrace else lbrace)).
    apply IH; lia.
Qed.

Section CommandRoundTrip.

Variables (v name : jsstring) (c : Z) (m : nat).
Hypothesis offset : 0 <= c <= JS.length v.
Hypothesis plainName : Forall (fun d => d <> backslash) name.
Hypothesis noBlockFollows : JS.eqAt v c lbrace = false.

Let command : jsstring := backslash :: name.
Let template : jsstring :=
  rbrace :: List.concat (List.repeat [lbrace; rbrace] m).
Let fragment : jsstring := command ++ lbrace :: template.
Let v' : jsstring := insertBetween v c fragment.
Let p : Z := c + JS.length command + 1.

Lemma template_length : List.length template = (2 * m + 1)%nat.
Proof. unfold template; simpl; rewrite blocks_length; lia. Qed.

Lemma fragment_length :
  List.length fragment = (List.length name + 2 * m + 3)%nat.
Proof.
  unfold fragment, command, template.
  rewrite length_app; simpl List.length.
  rewrite blocks_length; lia.
Qed.

Lemma fragment_get (k : nat) :
  (k < List.length fragment)%nat ->
  JS.get v' (c + Z.of_nat k) = nth_error fragment k.
Proof.
  intros Hk; unfold v'.
  rewrite (insertBetween_get v fragment c offset)
    by (unfold JS.length; lia).
  unfold JS.get.
  destruct (Z.ltb_spec (Z.of_nat k) 0); [lia |].
  now rewrite Nat2Z.id.
Qed.

Lemma after_fragment_get :
  JS.get v' (c + Z.of_nat (List.length fragment)) = JS.get v c.
Proof.
  unfold v', insertBetween, JS.get, JS.length in *.
  destruct (Z.ltb_spec (c + Z.of_nat (List.length fragment)) 0); [lia |].
  destruct (Z.ltb_spec c 0); [lia |].
  rewrite app_assoc.
  rewrite nth_error_app2
    by (rewrite length_app, prefix_length by assumption; lia).
  rewrite length_app, prefix_length by assumption.
  replace (Z.to_nat (c + Z.of_nat (List.length fragment))
           - (Z.to_nat c + List.length fragment))%nat with 0%nat by lia.
  rewrite <- (firstn_skipn (Z.to_nat c) v) at 2.
  rewrite nth_error_app2 by (rewrite prefix_length by assumption; lia).
  now rewrite prefix_length, Nat.sub_diag by assumption.
Qed.

Lemma eqAt_by_get (s : jsstring) (i : Z) (d ch : ascii) :
  JS.get s i = Some d -> JS.eqAt s i ch = Ascii.eqb d ch.
Proof. intros H; unfold JS.eqAt; now rewrite H. Qed.

(** The backslash of the command stands at [c]. *)
Lemma command_backslash : JS.eqAt v' c backslash = true.
Proof.
  rewrite <- (Z.add_0_r c).
  rewrite (eqAt_by_get _ _ backslash); [reflexivity |].
  change 0 with (Z.of_nat 0).
  rewrite fragment_get by (rewrite fragment_length; lia).
  reflexivity.
Qed.

(** No backslash between the one of the command and the cursor. *)
Lemma no_backslash_to_cursor (k : Z) :
  c < k <= p -> JS.eqAt v' k backslash = false.
Proof.
  intros Hk.
  unfold p, command, JS.length in Hk; simpl List.length in Hk.
  replace k with (c + Z.of_nat (Z.to_nat (k - c))) by lia.
  set (i := Z.to_nat (k - c)).
  assert (Hi : (1 <= i <= List.length name + 2)%nat) by lia.
  assert (Hget : exists d, nth_error fragment i = Some d /\ d <> backslash).
  { unfold fragment, command.
    destruct i as [| i]; [lia |].
    simpl nth_error.
    destruct (Nat.lt_ge_cases i (List.length name)) as [Hin | Hout].
    - rewrite nth_error_app1 by assumption.
      destruct (nth_error name i) as [d |] eqn:Hd;
        [| apply nth_error_None in Hd; lia].
      exists d; split; [reflexivity |].
      rewrite Forall_forall in plainName.
      apply plainName; eapply nth_error_In; eassumption.
    - rewrite nth_error_app2 by assumption.
      assert (Hcases : (i - List.length name = 0 \/ i - List.length name = 1)%nat)
        by lia.
      destruct Hcases as [-> | ->]; simpl.
      + exists lbrace; split; [reflexivity | discriminate].
      + exists rbrace; split; [reflexivity | discriminate]. }
  destruct Hget as [d [Hd Hne]].
  rewrite (eqAt_by_get _ _ d)
    by (rewrite fragment_get by (rewrite fragment_length; lia); exact Hd).
  now apply Ascii.eqb_neq.
Qed.

(** The characters from the cursor on are those of the template. *)
Lemma template_at_cursor (i : nat) :
  (i <= 2 * m)%nat ->
  JS.get v' (p + Z.of_nat i)
  = Some (if Nat.even i then rbrace else lbrace).
Proof.
  intros Hi.
  unfold p, command, JS.length; simpl List.length.
  replace (c + Z.of_nat (S (List.length name)) + 1 + Z.of_nat i)
    with (c + Z.of_nat (List.length name + 2 + i)) by lia.
  rewrite fragment_get by (rewrite fragment_length; lia).
  unfold fragment, command.
  change ((backslash :: name) ++ lbrace :: template)
    with (backslash :: (name ++ lbrace :: template)).
  replace (List.length name + 2 + i)%nat
    with (S (List.length name + S i)) by lia.
  simpl nth_error.
  rewrite nth_error_app2 by lia.
  replace (List.length name + S i - List.length name)%nat with (S i) by lia.
  simpl nth_error.
  now apply template_get.
Qed.

Lemma after_template : JS.eqAt v' (p + Z.of_nat (2 * m) + 1) lbrace = false.
Proof.
  rewrite <- noBlockFollows.
  unfold JS.eqAt.
  replace (p + Z.of_nat (2 * m) + 1)
    with (c + Z.of_nat (List.length fragment)).
  - now rewrite after_fragment_get.
  - rewrite fragment_length.
    unfold p, command, JS.length; simpl List.length; lia.
Qed.

(** The last closing brace of the template is the first one from the
    cursor on that no opening brace follows. *)
Lemma template_closes :
  firstClosing v' p (p + Z.of_nat (2 * m)).
Proof.
  assert (Heven : Nat.even (2 * m) = true).
  { rewrite Nat.even_mul; reflexivity. }
  split; [lia |]; split.
  - unfold closes.
    rewrite (eqAt_by_get _ _ rbrace)
      by (rewrite template_at_cursor, Heven by lia; reflexivity).
    now rewrite after_template.
  - intros k Hk.
    replace k with (p + Z.of_nat (Z.to_nat (k - p))) by lia.
    set (i := Z.to_nat (k - p)).
    assert (Hi : (i < 2 * m)%nat) by lia.
    unfold closes.
    destruct (Nat.even i) eqn:Hparity.
    + replace (p + Z.of_nat i + 1) with (p + Z.of_nat (S i)) by lia.
      rewrite (eqAt_by_get _ (p + Z.of_nat (S i)) lbrace).
      * now rewrite andb_false_r.
      * rewrite template_at_cursor by lia.
        now rewrite Nat.even_succ, <- Nat.negb_even, Hparity.
    + rewrite (eqAt_by_get _ (p + Z.of_nat i) lbrace); [reflexivity |].
      rewrite template_at_cursor by lia.
      now rewrite Hparity.
Qed.

Lemma brace_before_cursor : isBrace v' (p - 1) = true.
Proof.
  unfold isBrace.
  replace (p - 1) with (c + Z.of_nat (List.length name + 1))
    by (unfold p, command, JS.length; simpl List.length; lia).
  rewrite (eqAt_by_get _ _ lbrace); [reflexivity |].
  rewrite fragment_get by (rewrite fragment_length; lia).
  unfold fragment, command.
  change ((backslash :: name) ++ lbrace :: template)
    with (backslash :: (name ++ lbrace :: template)).
  replace (List.length name + 1)%nat with (S (List.length name)) by lia.
  simpl nth_error.
  rewrite nth_error_app2 by lia.
  now rewrite Nat.sub_diag.
Qed.

(** [findCommandAt] at the cursor finds the span of the template just
    inserted. *)
Lemma locate_inserted_command (fuel : nat) :
  (List.length v + List.length name + 2 * m + 6 <= fuel)%nat ->
  findCommandAt fuel v' p
  = Some {| start := Some c; end_ := p + Z.of_nat (2 * m) |}.
Proof.
  intros Hfuel.
  assert (Hlen : JS.length v' = JS.length v + Z.of_nat (List.length fragment)).
  { unfold v'; now rewrite insertBetween_length. }
  assert (Hp : p = c + Z.of_nat (List.length name) + 2).
  { unfold p, command, JS.length; simpl List.length; lia. }
  rewrite fragment_length in Hlen.
  unfold JS.length in offset.
  destruct (findCommandAt_ends v' p fuel) as [a [b [Ha [Hb Hrun]]]];
    try (unfold JS.length in *; lia).
  rewrite Hrun; do 2 f_equal.
  - pose proof command_backslash as Hhit.
    destruct a as [j | j]; simpl in Ha.
    + destruct Ha as [Hj [Hback Hafter]].
      destruct (Z.lt_trichotomy j c) as [Hlt | [-> | Hgt]];
        [| reflexivity |].
      * rewrite Hafter in Hhit by lia; discriminate.
      * rewrite no_backslash_to_cursor in Hback by lia; discriminate.
    + destruct Ha as [_ Hnone].
      rewrite Hnone in Hhit by lia; discriminate.
  - destruct template_closes as [_ [Hcloses Hfirst]].
    destruct b as [j | j]; simpl in *.
    + destruct Hb as [Hj [Hhit Hbefore]].
      destruct (Z.lt_trichotomy j (p + Z.of_nat (2 * m)))
        as [Hlt | [-> | Hgt]]; [| reflexivity |].
      * rewrite Hfirst in Hhit by lia; discriminate.
      * rewrite Hbefore in Hcloses by lia; discriminate.
    + destruct Hb as [_ Hnone].
      rewrite Hnone in Hcloses; [discriminate |].
      unfold JS.length in *; lia.
Qed.

Lemma erase_inserted_command (fuel : nat) (log : list Z) :
  (List.length v + List.length name + 2 * m + 6 <= fuel)%nat ->
  erase fuel {| value := v'; cursor := p; console := log |}
  = Some {| value := v; cursor := c; console := log |}.
Proof.
  intros Hfuel.
  unfold erase; cbn [value cursor console].
  rewrite brace_before_cursor, (locate_inserted_command fuel Hfuel).
  cbn [start end_ JS.toInteger].
  assert (Hp : p + Z.of_nat (2 * m) + 1
               = c + JS.length fragment).
  { unfold JS.length; rewrite fragment_length.
    unfold p, command, JS.length; simpl List.length; lia. }
  assert (Hpos : 0 <= p) by (unfold p, JS.length; lia).
  rewrite slice_prefix, slice_suffix by lia.
  rewrite Hp; unfold v'.
  rewrite insertBetween_prefix, insertBetween_suffix by assumption.
  rewrite firstn_skipn.
  unfold JS.length at 1; rewrite prefix_length by assumption.
  now rewrite Z2Nat.id by lia.
Qed.

End CommandRoundTrip.

(** X17: [erase] undoes [insertCommand].  For a command made of a
    backslash and a name without backslash, a block count of at least 1,
    a cursor that is an offset of the buffer and not on an opening
    brace, [insertCommand] followed by [erase] gives back the editor as
    it was: the whole template goes in one step. *)
Theorem erase_undoes_insertCommand (fuel : nat) (name : jsstring)
        (blockCount : Z) (e : t) :
  0 <= cursor e <= JS.length (value e) ->
  1 <= blockCount ->
  Forall (fun d => d <> backslash) name ->
  JS.eqAt (value e) (cursor e) lbrace = false ->
  (List.length (value e) + List.length name + 2 * Z.to_nat blockCount + 4
   <= fuel)%nat ->
  exists e',
    insertCommand (backslash :: name) blockCount e = Returned e'
    /\ erase fuel e' = Some e.
Proof.
  intros Hc Hcount Hname Hnext Hfuel.
  rewrite insertCommand_returns by assumption.
  eexists; split; [reflexivity |].
  rewrite (erase_inserted_command (value e) name (cursor e)
             (Z.to_nat (blockCount - 1)) Hc Hname Hnext fuel (console e))
    by lia.
  now rewrite editor_eta.
Qed.

Lemma erase_undoes_insertCommand_witness :
  let e := {| value := JS.lit "a+b"; cursor := 2; console := [] |} in
  0 <= cursor e <= JS.length (value e)
  /\ exists e',
       insertCommand (JS.lit "\frac") 2 e = Returned e'
       /\ value e' = JS.lit "a+\frac{}{}b"
       /\ erase 15 e' = Some e.
Proof.
  intros e.
  assert (Hc : 0 <= cursor e <= JS.length (value e))
    by (unfold JS.length; simpl; lia).
  split; [exact Hc |].
  destruct (erase_undoes_insertCommand 15 (JS.lit "frac") 2 e Hc)
    as [e' [Hrun Hback]].
  - lia.
  - repeat constructor; discriminate.
  - reflexivity.
  - simpl; lia.
  - exists e'; split; [exact Hrun |]; split; [| exact Hback].
    change (insertCommand (JS.lit "\frac") 2 e = Returned e') in Hrun.
    vm_compute in Hrun. injection Hrun as <-. reflexivity.
Defined.

(** * [insert] after [erase] *)

Lemma split_at_character (s : jsstring) (n : nat) (ch : ascii) :
  nth_error s n = Some ch ->
  firstn n s ++ ch :: skipn (S n) s = s.
Proof.
  revert s; induction n as [| n IH]; intros [| d s] Hn;
    try discriminate; simpl in *.
  - now injection Hn as ->.
  - f_equal; now apply IH.
Qed.

(** X18: typing again the character that [erase] has just removed gives
    back the editor as it was, for a cursor inside the buffer and a
    character that is not a brace. *)
Theorem insert_restores_erased_character (fuel : nat) (ch : ascii) (e : t) :
  1 <= cursor e <= JS.length (value e) ->
  JS.get (value e) (cursor e - 1) = Some ch ->
  ch <> lbrace -> ch <> rbrace ->
  exists e', erase fuel e = Some e' /\ insert [ch] e' = e.
Proof.
  intros Hc Hget Hl Hr.
  rewrite erase_ordinary by exact (isBrace_false_get _ _ _ Hget Hl Hr).
  rewrite slice_prefix, slice_suffix by lia.
  eexists; split; [reflexivity |].
  set (n := Z.to_nat (cursor e - 1)).
  assert (Hn : List.length (firstn n (value e)) = n).
  { unfold JS.length in Hc; rewrite length_firstn; lia. }
  assert (Hkept : JS.length (firstn n (value e)) = cursor e - 1).
  { unfold JS.length; rewrite Hn; lia. }
  rewrite insert_at_offset by (simpl; lia).
  cbn [value cursor console].
  rewrite Hkept; fold n.
  unfold insertBetween.
  replace (Z.to_nat (cursor e - 1)) with n by reflexivity.
  rewrite firstn_app, skipn_app, Hn, Nat.sub_diag; simpl.
  rewrite firstn_all2, skipn_all2 by lia.
  rewrite app_nil_r; simpl.
  assert (Hnth : nth_error (value e) n = Some ch).
  { unfold JS.get in Hget.
    destruct (Z.ltb_spec (cursor e - 1) 0); [lia | exact Hget]. }
  replace (Z.to_nat (cursor e)) with (S n) by lia.
  rewrite (split_at_character _ _ _ Hnth).
  replace (cursor e - 1 + JS.length [ch]) with (cursor e)
    by (unfold JS.length; simpl; lia).
  apply editor_eta.
Qed.

Lemma insert_restores_erased_character_witness :
  let e := {| value := JS.lit "x^2+1"; cursor := 3; console := [] |} in
  1 <= cursor e <= JS.length (value e)
  /\ exists e', erase 0 e = Some e' /\ insert (JS.lit "2") e' = e.
Proof.
  intros e.
  assert (Hc : 1 <= cursor e <= JS.length (value e))
    by (unfold JS.length; simpl; lia).
  split; [exact Hc |].
  apply (insert_restores_erased_character 0 "2"%char e Hc);
    [reflexivity | discriminate | discriminate].
Defined.

(** * The keyboard listener *)

Lemma trimStart_blank (s : jsstring) :
  Forall (fun c => isWhiteSpace c = true) s -> trimStart s = [].
Proof.
  induction 1 as [| c s Hc _ IH]; [reflexivity |].
  simpl; now rewrite Hc.
Qed.

Lemma trim_blank (s : jsstring) :
  Forall (fun c => isWhiteSpace c = true) s -> trim s = [].
Proof. intros Hs; unfold trim; now rewrite (trimStart_blank s Hs). Qed.

Lemma trimStart_kept (c : ascii) (s : jsstring) :
  isWhiteSpace c = false -> trimStart (c :: s) = c :: s.
Proof. intros Hc; simpl; now rewrite Hc. Qed.

(** A text that neither starts nor ends with white space is left as it
    is by [trim]. *)
Lemma trim_kept (s : jsstring) (first last : ascii) :
  hd_error s = Some first -> hd_error (rev s) = Some last ->
  isWhiteSpace first = false -> isWhiteSpace last = false ->
  trim s = s.
Proof.
  intros Hfirst Hlast Hf Hl; unfold trim.
  destruct s as [| c s]; [discriminate |].
  injection Hfirst as ->.
  rewrite trimStart_kept by assumption.
  destruct (rev (first :: s)) as [| d u] eqn:Hrev; [discriminate |].
  injection Hlast as ->.
  rewrite trimStart_kept by assumption.
  now rewrite <- Hrev, rev_involutive.
Qed.

(** Typed characters that come with no key code are inserted one after
    the other; from an offset of the buffer that is one [insert] of the
    whole text. *)
Lemma insert_offset_kept (text : jsstring) (e : t) :
  0 <= cursor e <= JS.length (value e) ->
  0 <= cursor (insert text e) <= JS.length (value (insert text e)).
Proof.
  intros Hc.
  pose proof (length_nonneg text) as Htext.
  rewrite insert_at_offset by lia; simpl.
  rewrite insertBetween_length; lia.
Qed.

Lemma forEachChar_inserts (fuel : nat) (chars : jsstring) (e : t) :
  0 <= cursor e <= JS.length (value e) ->
  forEachChar fuel None chars e = Some (insert chars e).
Proof.
  revert e; induction chars as [| c chars IH]; intros e Hc.
  - simpl; f_equal.
    rewrite insert_at_offset by lia.
    unfold insertBetween; simpl.
    rewrite firstn_skipn, Z.add_0_r.
    symmetry; apply editor_eta.
  - simpl.
    rewrite IH by now apply insert_offset_kept.
    f_equal.
    exact (insert_twice_is_insert_joined_aux [c] chars e Hc).
Qed.

(** X19: a [keyup] event that finds the input element empty, or holding
    white space only, changes nothing: no character is inserted and
    nothing is reported, whatever the key was. *)
Theorem keyup_blank_input_ignored (fuel : nat) (code : Z)
        (inputValue : jsstring) (e : t) :
  Forall (fun c => isWhiteSpace c = true) inputValue ->
  handleInputEvent fuel {| type := keyup; keyCode := code |} inputValue e
  = Some e.
Proof.
  intros Hblank; unfold handleInputEvent.
  now rewrite trim_blank.
Qed.

Lemma keyup_blank_input_ignored_witness :
  let e := {| value := JS.lit "x^2"; cursor := 3; console := [] |} in
  Forall (fun c => isWhiteSpace c = true) (JS.lit "  ")
  /\ handleInputEvent 0 {| type := keyup; keyCode := 32 |} (JS.lit "  ") e
     = Some e.
Proof.
  intros e.
  assert (Hblank : Forall (fun c => isWhiteSpace c = true) (JS.lit "  "))
    by (repeat constructor).
  split; [exact Hblank |].
  exact (keyup_blank_input_ignored 0 32 (JS.lit "  ") e Hblank).
Defined.

(** X20: a [keyup] event on a cursor that is an offset of the buffer
    inserts the text of the input element, without the white space
    around it, at the cursor, character by character, which comes to one
    [insert] of the trimmed text: the buffer holds it at the old cursor
    and the cursor stands after it. *)
Theorem keyup_inserts_trimmed_text (fuel : nat) (code : Z)
        (inputValue : jsstring) (e : t) :
  0 <= cursor e <= JS.length (value e) ->
  exists e',
    handleInputEvent fuel {| type := keyup; keyCode := code |} inputValue e
    = Some e'
    /\ e' = insert (trim inputValue) e
    /\ value e' = firstn (Z.to_nat (cursor e)) (value e)
                  ++ trim inputValue
                  ++ skipn (Z.to_nat (cursor e)) (value e)
    /\ cursor e' = cursor e + JS.length (trim inputValue)
    /\ console e' = console e.
Proof.
  intros Hc.
  exists (insert (trim inputValue) e).
  split.
  - unfold handleInputEvent; cbn [type].
    destruct (trim inputValue) as [| c chars] eqn:Htrim.
    + rewrite <- (forEachChar_inserts fuel [] e Hc); reflexivity.
    + now apply forEachChar_inserts.
  - split; [reflexivity |].
    rewrite insert_at_offset by lia; simpl.
    repeat split.
Qed.

Lemma keyup_inserts_trimmed_text_witness :
  let e := {| value := JS.lit "xy"; cursor := 1; console := [] |} in
  0 <= cursor e <= JS.length (value e)
  /\ exists e',
       handleInputEvent 0 {| type := keyup; keyCode := 65 |}
                        (JS.lit "  ab c ") e = Some e'
       /\ value e' = JS.lit "xab cy" /\ cursor e' = 5.
Proof.
  intros e.
  assert (Hc : 0 <= cursor e <= JS.length (value e))
    by (unfold JS.length; simpl; lia).
  split; [exact Hc |].
  destruct (keyup_inserts_trimmed_text 0 65 (JS.lit "  ab c ") e Hc)
    as [e' [Hrun [_ [Hvalue [Hcursor _]]]]].
  exists e'; split; [exact Hrun |]; split; [exact Hvalue | exact Hcursor].
Defined.

(** X21: typed at the sentinel, the first character goes in front of the
    buffer with the cursor before it, so the characters that follow are
    inserted in front of it: a burst [c], [rest] leaves the buffer
    [rest], [c], then the old text, with the cursor between [rest] and
    [c]. *)
Theorem keyup_at_sentinel_misplaces_first (fuel : nat) (code : Z)
        (inputValue rest : jsstring) (c : ascii) (e : t) :
  cursor e = -1 ->
  trim inputValue = c :: rest ->
  handleInputEvent fuel {| type := keyup; keyCode := code |} inputValue e
  = Some {| value := rest ++ c :: value e;
            cursor := JS.length rest;
            console := console e |}.
Proof.
  intros Hc Htrim.
  unfold handleInputEvent; cbn [type].
  rewrite Htrim; simpl.
  assert (Hfirst : insert [c] e
                   = {| value := c :: value e; cursor := 0;
                        console := console e |}).
  { unfold insert; rewrite Hc; reflexivity. }
  rewrite Hfirst.
  rewrite forEachChar_inserts
    by (cbn [cursor value]; pose proof (length_nonneg (c :: value e)); lia).
  now rewrite insert_at_offset by (simpl; lia).
Qed.

Lemma keyup_at_sentinel_misplaces_first_witness :
  let e := {| value := JS.lit "{"; cursor := -1; console := [] |} in
  cursor e = -1
  /\ handleInputEvent 0 {| type := keyup; keyCode := 67 |} (JS.lit "abc") e
     = Some {| value := JS.lit "bca{"; cursor := 2; console := [] |}.
Proof.
  intros e.
  split; [reflexivity |].
  apply (keyup_at_sentinel_misplaces_first 0 67 (JS.lit "abc")
           (JS.lit "bc") "a"%char e); reflexivity.
Defined.

(** * Sequences of operations *)

Section Exits.

Variable hit : Z -> bool.



End Exits.

(** * Erase after a closing brace *)

(** With a brace before the cursor and a backslash under it, the span
    [findCommandAt] returns starts at the cursor: [erase] keeps all that
    stands before the cursor, the brace included, and removes what
    follows. *)
Lemma erase_brace_before_backslash (fuel : nat) (e : t) :
  isBrace (value e) (cursor e - 1) = true ->
  JS.eqAt (value e) (cursor e) backslash = true ->
  (List.length (value e) + 2 <= fuel)%nat ->
  exists co,
    findCommandAt fuel (value e) (cursor e) = Some co
    /\ start co = Some (cursor e)
    /\ erase fuel e
       = Some {| value := firstn (Z.to_nat (cursor e)) (value e)
                          ++ skipn (Z.to_nat (end_ co + 1)) (value e);
                 cursor := cursor e;
                 console := console e |}.
Proof.
  intros Hbrace Hback Hfuel.
  pose proof (eqAt_range _ _ _ Hback) as Hc.
  pose proof (isBrace_range _ _ Hbrace) as Hp.
  assert (Hlen : JS.length (value e) = Z.of_nat (List.length (value e)))
    by reflexivity.
  destruct (findCommandAt_ends (value e) (cursor e) fuel)
    as [a [b [Ha [Hb Hrun]]]]; try lia.
  assert (Hstart : a = Broke (cursor e)).
  { destruct a as [j | j]; simpl in Ha.
    - destruct Ha as [Hj [_ Hafter]].
      destruct (Z.eq_dec j (cursor e)) as [-> | Hne]; [reflexivity |].
      rewrite Hafter in Hback by lia; discriminate.
    - destruct Ha as [_ Hnone].
      rewrite Hnone in Hback by lia; discriminate. }
  subst a.
  assert (Hend : cursor e <= counter b).
  { destruct b as [j | j]; simpl in *; lia. }
  eexists; split; [exact Hrun |]; simpl.
  split; [reflexivity |].
  unfold erase; rewrite Hbrace, Hrun; simpl.
  rewrite slice_prefix, slice_suffix by lia.
  unfold JS.length in *; rewrite length_firstn.
  do 2 f_equal; lia.
Qed.

(** C4 (evaluation of the code): the buffer holds two commands, [\sqrt{2}]
    at 0..7 and [\sqrt{3}] at 8..15, and the cursor is at 8, just after
    the closing brace of the first.  The command that encloses that
    brace spans 0..7 (nearest backslash 0, closing brace 7), and without
    it the buffer would be [\sqrt{3}]; [erase] keeps it and removes the
    second command, leaving [\sqrt{2}] with the cursor still at 8.  On
    [x+\sqrt{2}+y] with the cursor at 10, after the closing brace, it
    removes the command and the text [+y] that follows it. *)
Theorem erase_after_closing_brace_takes_what_follows :
  let v := JS.lit "\sqrt{2}\sqrt{3}" in
  JS.eqAt v (8 - 1) rbrace = true
  /\ nearestBackslash v 7 0
  /\ firstClosing v 7 7
  /\ firstn 0 v ++ skipn (7 + 1) v = JS.lit "\sqrt{3}"
  /\ findCommandAt 18 v 8 = Some {| start := Some 8; end_ := 15 |}
  /\ erase 18 {| value := v; cursor := 8; console := [] |}
     = Some {| value := JS.lit "\sqrt{2}"; cursor := 8; console := [] |}
  /\ erase 18 {| value := JS.lit "x+\sqrt{2}+y"; cursor := 10;
                 console := [] |}
     = Some {| value := JS.lit "x+"; cursor := 2; console := [] |}.
Proof.
  intros v.
  split; [reflexivity |].
  split.
  { split; [lia |]; split; [reflexivity |].
    intros k Hk.
    assert (Hcases : k = 1 \/ k = 2 \/ k = 3 \/ k = 4 \/ k = 5 \/ k = 6
                     \/ k = 7) by lia.
    repeat (destruct Hcases as [-> | Hcases]; [reflexivity |]).
    subst k; reflexivity. }
  split.
  { split; [lia |]; split; [reflexivity |]; intros k Hk; lia. }
  repeat split; reflexivity.
Qed.

(** * Command names *)

Section Names.

Variable v : jsstring.







End Names.



Section SpliceIndex.

Variables (v fragment : jsstring) (c : Z).
Hypothesis offset : 0 <= c <= JS.length v.




End SpliceIndex.



Section RemoveIndex.

Variables (v : jsstring) (c : Z).
Hypothesis inside : 1 <= c <= JS.length v.

Let v' : jsstring := firstn (Z.to_nat (c - 1)) v ++ skipn (Z.to_nat c) v.




End RemoveIndex.



(** * Single operations and sequences *)















(** * The cursor invariant, operation by operation *)



